(** * Quoridor: a shallow embedding of [Quoridor.py] and its properties *)

(** The Python class [QuoridorGame] keeps a 10 x 10 board of three-slot
    cells (slot 0: pawn, slot 1: horizontal fence, slot 2: vertical fence),
    two fence counters, the current player and the winner.  Its methods are
    embedded as computations in a state-and-exception monad: the state is
    the object's fields, the only exception the code can raise on integer
    coordinates is [IndexError], from list subscripts. *)

From Stdlib Require Import ZArith String Bool Lia DecimalString.
From stdpp Require Import base tactics option list numbers.

Local Open Scope Z_scope.

(** ** Python values and list subscripts *)

(** class Fence: one field, one getter. *)
Record Fence := mkFence { _orientation : string }.

Definition get_orientation (f : Fence) : string := _orientation f.

(** What a cell slot can hold: [None], an [int] (a pawn's owner) or a
    [Fence] object. *)
Inductive value :=
| VNone
| VInt (n : Z)
| VFence (f : Fence).

Abbreviation cell := (list value).
Abbreviation board := (list (list (list value))).

(** [l[i]] for a Python list of length [len]: indices [0 .. len-1] and
    [-len .. -1] are valid, the negative ones counting from the end. *)
Definition py_index (len : nat) (i : Z) : option nat :=
  if (0 <=? i) && (i <? Z.of_nat len) then Some (Z.to_nat i)
  else if (- Z.of_nat len <=? i) && (i <? 0) then Some (Z.to_nat (Z.of_nat len + i))
  else None.

(** [l[i]]; [None] stands for [IndexError]. *)
Definition getitem {A} (l : list A) (i : Z) : option A :=
  n ← py_index (length l) i; l !! n.

(** [l[i] = x]; [None] stands for [IndexError]. *)
Definition setitem {A} (l : list A) (i : Z) (x : A) : option (list A) :=
  n ← py_index (length l) i; Some (<[n := x]> l).

(** [b[i][j][k]]. *)
Definition bget (b : board) (i j k : Z) : option value :=
  row ← getitem b i; c ← getitem row j; getitem c k.

(** [b[i][j][k] = v]: the cell object is updated in place; every cell and
    every row of the board is a list of its own (they are built by nested
    comprehensions), so the update shows in that one place only. *)
Definition bset (b : board) (i j k : Z) (v : value) : option board :=
  row ← getitem b i; c ← getitem row j;
  c' ← setitem c k v; row' ← setitem row j c'; setitem b i row'.

(** [x is None]. *)
Definition is_none (v : value) : bool :=
  match v with VNone => true | _ => false end.

(** [v == player] for a slot value and a player argument ([None] or an
    int).  A [Fence] has no [__eq__], so it equals neither. *)
Definition eq_player (v : value) (player : option Z) : bool :=
  match v, player with
  | VNone, None => true
  | VInt a, Some b => a =? b
  | _, _ => false
  end.

(** [player == n] for an int literal [n]. *)
Definition player_is (player : option Z) (n : Z) : bool :=
  match player with Some p => p =? n | None => false end.

(** [w == player] for the winner field. *)
Definition eq_opt (w player : option Z) : bool :=
  match w, player with
  | None, None => true
  | Some a, Some b => a =? b
  | _, _ => false
  end.

(** ** The game object and the monad of its methods *)

Record QuoridorGame := mkGame {
  _board : board;
  _p1_fence_count : Z;
  _p2_fence_count : Z;
  _current_player : Z;
  _winner : option Z
}.

Inductive exn := IndexError.

Inductive outcome (A : Type) :=
| Ret (a : A)
| Raise (e : exn).
Arguments Ret {A} a.
Arguments Raise {A} e.

Definition M (A : Type) : Type := QuoridorGame → outcome A * QuoridorGame.

Definition ret {A} (a : A) : M A := λ self, (Ret a, self).

Definition bind {A B} (m : M A) (k : A → M B) : M B :=
  λ self, match m self with
          | (Ret a, self') => k a self'
          | (Raise e, self') => (Raise e, self')
          end.

Notation "'do' x <- m 'in' k" := (bind m (λ x, k))
  (at level 10, x name, m at level 100, k at level 200, only parsing).
Notation "m >> k" := (bind m (λ _, k))
  (at level 100, k at level 200, only parsing, right associativity).

Definition get_self : M QuoridorGame := λ self, (Ret self, self).

(** [self._board[i][j][k]] as an expression. *)
Definition board_get (i j k : Z) : M value :=
  λ self, match bget (_board self) i j k with
          | Some v => (Ret v, self)
          | None => (Raise IndexError, self)
          end.

(** [self._board[i][j][k] = v] as a statement. *)
Definition board_set (i j k : Z) (v : value) : M unit :=
  λ self, match bset (_board self) i j k v with
          | Some b => (Ret tt, mkGame b (_p1_fence_count self) (_p2_fence_count self)
                                      (_current_player self) (_winner self))
          | None => (Raise IndexError, self)
          end.

Definition set_winner (w : option Z) : M unit :=
  λ self, (Ret tt, mkGame (_board self) (_p1_fence_count self) (_p2_fence_count self)
                          (_current_player self) w).

Definition set_current_player (p : Z) : M unit :=
  λ self, (Ret tt, mkGame (_board self) (_p1_fence_count self) (_p2_fence_count self)
                          p (_winner self)).

Definition set_p1_fence_count (n : Z) : M unit :=
  λ self, (Ret tt, mkGame (_board self) n (_p2_fence_count self)
                          (_current_player self) (_winner self)).

Definition set_p2_fence_count (n : Z) : M unit :=
  λ self, (Ret tt, mkGame (_board self) (_p1_fence_count self) n
                          (_current_player self) (_winner self)).

(** [a and b]: [b] is evaluated only when [a] is true. *)
Definition and_then (a b : M bool) : M bool :=
  do x <- a in if x then b else ret false.

(** [self._board[i][j][0] == player]. *)
Definition pawn_here (i j : Z) (player : option Z) : M bool :=
  do v <- board_get i j 0 in ret (eq_player v player).

(** [self._board[i][j][k] is None]. *)
Definition slot_free (i j k : Z) : M bool :=
  do v <- board_get i j k in ret (is_none v).

(** ** The methods of [QuoridorGame] *)

(** A coordinate is the pair [(coord[0], coord[1])]. *)
Abbreviation coord := (Z * Z)%type.

(** The guard shared by [move_pawn] and [place_fence]: it tests [coord[1]]
    against 8 twice and [coord[0]] against 0 only. *)
Definition out_of_bounds (c : coord) : bool :=
  (c.2 <? 0) || (c.2 >? 8) || (c.1 <? 0) || (c.2 >? 8).

Definition move_pawn_success (player : option Z) (prev current : coord) : M bool :=
  board_set current.2 current.1 0
            (match player with Some p => VInt p | None => VNone end) >>
  board_set prev.2 prev.1 0 VNone >>
  (if player_is player 1 then
     (if current.1 =? 8 then set_winner (Some 1) else ret tt) >>
     set_current_player 2
   else if player_is player 2 then
     (if current.1 =? 0 then set_winner (Some 0) else ret tt) >>
     set_current_player 1
   else ret tt) >>
  ret true.

Definition move_pawn (player : option Z) (c : coord) : M bool :=
  do self <- get_self in
  if out_of_bounds c
     || negb (eq_opt (_winner self) None)
     || negb (eq_opt player (Some (_current_player self)))
  then ret false
  else
    do north <- and_then (pawn_here (c.2 - 1) c.1 player) (slot_free c.2 c.1 1) in
    if north then move_pawn_success player (c.1, c.2 - 1) c
    else
      do south <- and_then (pawn_here (c.2 + 1) c.1 player) (slot_free (c.2 + 1) c.1 1) in
      if south then move_pawn_success player (c.1, c.2 + 1) c
      else
        do west <- and_then (pawn_here c.2 (c.1 - 1) player) (slot_free c.2 c.1 2) in
        if west then move_pawn_success player (c.1 - 1, c.2) c
        else
          do east <- and_then (pawn_here c.2 (c.1 + 1) player) (slot_free c.2 (c.1 + 1) 2) in
          if east then move_pawn_success player (c.1 + 1, c.2) c
          else ret false.

(** The result is Python's [True], or [None] when the function falls off
    its end (the setup calls, with [player = None]). *)
Definition fence_placed_success (player : option Z) : M (option bool) :=
  (if player_is player 1 then
     do self <- get_self in
     set_p1_fence_count (_p1_fence_count self - 1) >>
     set_current_player 2
   else if player_is player 2 then
     do self <- get_self in
     set_p2_fence_count (_p2_fence_count self - 1) >>
     set_current_player 1
   else ret tt) >>
  match player with
  | Some _ => ret (Some true)
  | None => ret None
  end.

Definition place_fence (player : option Z) (orient : string) (c : coord)
  : M (option bool) :=
  do self <- get_self in
  if out_of_bounds c
     || negb (eq_opt (_winner self) None)
     || (negb (eq_opt player None)
         && negb (eq_opt player (Some (_current_player self))))
  then ret (Some false)
  else if (player_is player 1 && (_p1_fence_count self =? 0))
          || (player_is player 2 && (_p2_fence_count self =? 0))
  then ret (Some false)
  else
    do h <- and_then (ret (String.eqb orient "h"%string)) (slot_free c.2 c.1 1) in
    if h then
      board_set c.2 c.1 1 (VFence (mkFence orient)) >>
      fence_placed_success player
    else
      do v <- and_then (ret (String.eqb orient "v"%string)) (slot_free c.2 c.1 2) in
      if v then
        board_set c.2 c.1 2 (VFence (mkFence orient)) >>
        fence_placed_success player
      else ret (Some false).

Definition is_winner (self : QuoridorGame) (player : option Z) : bool :=
  if eq_opt (_winner self) player then true else false.

(** [for x in xs: body x]. *)
Fixpoint for_each {A} (xs : list A) (body : A → M unit) : M unit :=
  match xs with
  | [] => ret tt
  | x :: xs' => body x >> for_each xs' body
  end.

Definition range (n : nat) : list Z := Z.of_nat <$> seq 0 n.

(** The fields as [__init__] first assigns them; the two pawn writes and
    the fence loop then run on this object. *)
Definition fresh_fields : QuoridorGame :=
  mkGame (replicate 10 (replicate 10 (replicate 3 VNone))) 10 10 1 None.

Definition init : M unit :=
  board_set 0 4 0 (VInt 1) >>
  board_set 8 4 0 (VInt 2) >>
  for_each (range 10) (λ column,
    for_each (range 10) (λ row,
      (if (column =? 0) || (column =? 9)
       then place_fence None "v"%string (column, row) >> ret tt
       else ret tt) >>
      (if (row =? 0) || (row =? 9)
       then place_fence None "h"%string (column, row) >> ret tt
       else ret tt))).

(** [QuoridorGame()]. *)
Definition new_game : QuoridorGame := (init fresh_fields).2.

(** ** Sequences of calls *)

Inductive call :=
| MovePawn (player : option Z) (c : coord)
| PlaceFence (player : option Z) (orient : string) (c : coord).

(** What a call answers: a returned value ([Some true], [Some false] or
    [None] for Python's [None]) or a raised exception. *)
Definition run_call (c : call) : M (option bool) :=
  match c with
  | MovePawn player xy => do b <- move_pawn player xy in ret (Some b)
  | PlaceFence player orient xy => place_fence player orient xy
  end.

Definition step (g : QuoridorGame) (c : call) : QuoridorGame := (run_call c g).2.

Definition answer (g : QuoridorGame) (c : call) : outcome (option bool) := (run_call c g).1.

Definition play (g : QuoridorGame) (cs : list call) : QuoridorGame := foldl step g cs.

(** The states a caller can bring a new game into; a call that raises
    leaves the object as it was when the exception left the method. *)
Inductive reachable : QuoridorGame → Prop :=
| reachable_new : reachable new_game
| reachable_step g c : reachable g → reachable (step g c).

(** ** Subscripts on a board of the right shape *)

(** [__init__] builds ten rows of ten cells of three slots, and no method
    changes a length.  On such a board a subscript is valid from [-n] to
    [n-1] and a negative one names the slot [n] places further. *)

Definition shape (b : board) : Prop :=
  length b = 10%nat ∧
  Forall (λ row : list cell, length row = 10%nat ∧ Forall (λ cl : cell, length cl = 3%nat) row) b.

(** A subscript a list of length [n] accepts, and the position it names. *)
Definition valid (n i : Z) : bool := (- n <=? i) && (i <? n).

Definition norm (n i : Z) : Z := if i <? 0 then i + n else i.

(** The slot at natural-number positions, and its update. *)
Definition slot (b : board) (r c s : nat) : option value :=
  row ← b !! r; cl ← row !! c; cl !! s.

Definition upd (b : board) (r c s : nat) (v : value) : board :=
  match b !! r with
  | Some row =>
      match row !! c with
      | Some cl => <[r := <[c := <[s := v]> cl]> row]> b
      | None => b
      end
  | None => b
  end.

(** ** Pure readings of the methods' steps *)

(** An optional read as a computation: [None] raises. *)
Definition lift {A} (o : option A) : M A :=
  λ self, match o with
          | Some a => (Ret a, self)
          | None => (Raise IndexError, self)
          end.

(** [b[i][j][0] == player and b[i'][j'][k] is None]. *)
Definition probe (b : board) (i j : Z) (player : option Z) (i' j' k : Z) : option bool :=
  v ← bget b i j 0;
  if eq_player v player then w ← bget b i' j' k; Some (is_none w) else Some false.

(** The object after a move of player [p] to [c] that returns true, with
    [b'] the board after the two pawn writes. *)
Definition move_result (self : QuoridorGame) (p : Z) (c : coord) (b' : board)
  : QuoridorGame :=
  mkGame b' (_p1_fence_count self) (_p2_fence_count self) (3 - p)
         (if (p =? 1) && (c.1 =? 8) then Some 1
          else if (p =? 2) && (c.1 =? 0) then Some 0
          else _winner self).

(** ** The vocabulary of the rules *)

(** A coordinate [(column, row)] of the 9 x 9 playing area. *)
Definition on_board (c : coord) : bool :=
  (0 <=? c.1) && (c.1 <=? 8) && (0 <=? c.2) && (c.2 <=? 8).

(** Orthogonal neighbours: same column and rows one apart, or same row and
    columns one apart. *)
Definition adjacent (a c : coord) : bool :=
  ((a.1 =? c.1) && (Z.abs (a.2 - c.2) =? 1))
  || ((a.2 =? c.2) && (Z.abs (a.1 - c.1) =? 1)).

(** Player [p]'s pawn stands on [c]. *)
Definition pawn_at (g : QuoridorGame) (p : Z) (c : coord) : bool :=
  match bget (_board g) c.2 c.1 0 with
  | Some (VInt q) => q =? p
  | _ => false
  end.

(** Where the fence between two neighbouring cells is kept: a horizontal
    fence lies on the upper edge of its cell, so the edge between two cells
    of a column is slot 1 of the lower one (the larger row); a vertical
    fence lies on the left edge, so the edge between two cells of a row is
    slot 2 of the right one (the larger column).  The triple is
    (row, column, slot). *)
Definition edge_slot (a c : coord) : Z * Z * Z :=
  if a.1 =? c.1 then (Z.max a.2 c.2, c.1, 1) else (c.2, Z.max a.1 c.1, 2).

Definition edge_open (g : QuoridorGame) (a c : coord) : bool :=
  match bget (_board g) (edge_slot a c).1.1 (edge_slot a c).1.2 (edge_slot a c).2 with
  | Some v => is_none v
  | None => false
  end.

(** ** The invariant of reachable states *)

Record Inv (g : QuoridorGame) : Prop := mkInv {
  inv_shape : shape (_board g);
  inv_turn : _current_player g = 1 ∨ _current_player g = 2;
  inv_p1 : 0 ≤ _p1_fence_count g;
  inv_p2 : 0 ≤ _p2_fence_count g;
  inv_pawn : ∀ i j p, 0 ≤ i < 10 → 0 ≤ j < 10 →
    bget (_board g) i j 0 = Some (VInt p) → (p = 1 ∨ p = 2) ∧ i ≤ 8 ∧ j ≤ 8;
  inv_uniq : ∀ p i j i' j', 0 ≤ i < 10 → 0 ≤ j < 10 → 0 ≤ i' < 10 → 0 ≤ j' < 10 →
    bget (_board g) i j 0 = Some (VInt p) →
    bget (_board g) i' j' 0 = Some (VInt p) → i = i' ∧ j = j';
  inv_right : ∀ i, 0 ≤ i ≤ 8 → bget (_board g) i 9 2 ≠ Some VNone;
  inv_some : ∃ i j p, 0 ≤ i < 10 ∧ 0 ≤ j < 10 ∧ bget (_board g) i j 0 = Some (VInt p)
}.

(** From [src] the caller's pawn can step onto [c]. *)
Definition steps_from (g : QuoridorGame) (p : Z) (c src : coord) : bool :=
  on_board src && pawn_at g p src && edge_open g src c.

(** What [fence_placed_success] returns. *)
Definition fence_answer (player : option Z) : option bool :=
  match player with Some _ => Some true | None => None end.

(** The object after a fence is stored, with [b'] the board after the
    write. *)
Definition fence_result (self : QuoridorGame) (player : option Z) (b' : board)
  : QuoridorGame :=
  if player_is player 1
  then mkGame b' (_p1_fence_count self - 1) (_p2_fence_count self) 2 (_winner self)
  else if player_is player 2
  then mkGame b' (_p1_fence_count self) (_p2_fence_count self - 1) 1 (_winner self)
  else mkGame b' (_p1_fence_count self) (_p2_fence_count self)
              (_current_player self) (_winner self).

(** The two refusing tests of [place_fence], taken together. *)
Definition fence_guard (self : QuoridorGame) (player : option Z) (c : coord) : bool :=
  out_of_bounds c || negb (eq_opt (_winner self) None)
  || (negb (eq_opt player None) && negb (eq_opt player (Some (_current_player self))))
  || ((player_is player 1 && (_p1_fence_count self =? 0))
      || (player_is player 2 && (_p2_fence_count self =? 0))).

(** [orient == o and b[i][j][k] is None]. *)
Definition probe_fence (b : board) (orient o : string) (i j k : Z) : option bool :=
  if String.eqb orient o then w ← bget b i j k; Some (is_none w) else Some false.

(** The board of the new game, written out. *)
Definition new_board : board := Eval vm_compute in _board new_game.

(** ** The ways a call can end *)

Inductive ending (g : QuoridorGame) (c : call) : Prop :=
| refused :
    answer g c = Ret (Some false) → step g c = g → ending g c
| raised :
    answer g c = Raise IndexError → step g c = g → ending g c
| moved xy prev b1 b2 :
    c = MovePawn (Some (_current_player g)) xy →
    _winner g = None → on_board xy = true → adjacent prev xy = true →
    steps_from g (_current_player g) xy prev = true →
    bset (_board g) xy.2 xy.1 0 (VInt (_current_player g)) = Some b1 →
    bset b1 prev.2 prev.1 0 VNone = Some b2 →
    answer g c = Ret (Some true) →
    step g c = move_result g (_current_player g) xy b2 →
    ending g c
| fenced player orient xy k b' :
    c = PlaceFence player orient xy →
    (k = 1 ∧ orient = "h"%string ∨ k = 2 ∧ orient = "v"%string) →
    fence_guard g player xy = false →
    bget (_board g) xy.2 xy.1 k = Some VNone →
    bset (_board g) xy.2 xy.1 k (VFence (mkFence orient)) = Some b' →
    answer g c = Ret (fence_answer player) →
    step g c = fence_result g player b' →
    ending g c.

(** ** Example games *)

(** Player 2 walks along row 8 to column 0 while player 1 walks down
    column 4. *)
Definition game_p2_reaches_column_0 : list call :=
  [MovePawn (Some 1) (4, 1); MovePawn (Some 2) (3, 8);
   MovePawn (Some 1) (4, 2); MovePawn (Some 2) (2, 8);
   MovePawn (Some 1) (4, 3); MovePawn (Some 2) (1, 8);
   MovePawn (Some 1) (4, 4)].

(** Player 1 walks along row 0 to column 8 while player 2 walks up
    column 4. *)
Definition game_p1_reaches_column_8 : list call :=
  [MovePawn (Some 1) (5, 0); MovePawn (Some 2) (4, 7);
   MovePawn (Some 1) (6, 0); MovePawn (Some 2) (4, 6);
   MovePawn (Some 1) (7, 0); MovePawn (Some 2) (4, 5);
   MovePawn (Some 1) (8, 0)].

(** The two pawns walk towards each other along column 4 until player 2
    steps onto the cell player 1 stands on. *)
Definition game_p2_steps_on_p1 : list call :=
  [MovePawn (Some 1) (4, 1); MovePawn (Some 2) (4, 7);
   MovePawn (Some 1) (4, 2); MovePawn (Some 2) (4, 6);
   MovePawn (Some 1) (4, 3); MovePawn (Some 2) (4, 5);
   MovePawn (Some 1) (4, 4); MovePawn (Some 2) (4, 4)].

(** The slot exists and holds something: [x is not None]. *)
Definition occupied (o : option value) : bool :=
  match o with Some v => negb (is_none v) | None => false end.

(** ** Reserves and turns *)

(** The player argument of a call. *)
Definition actor (c : call) : option Z :=
  match c with
  | MovePawn player _ => player
  | PlaceFence player _ _ => player
  end.

(** The call returns true. *)
Definition succeeded (g : QuoridorGame) (c : call) : bool :=
  match answer g c with
  | Ret (Some true) => true
  | _ => false
  end.

(** The call is a fence placement with player [p]. *)
Definition fence_by (p : Z) (c : call) : bool :=
  match c with
  | PlaceFence (Some q) _ _ => q =? p
  | _ => false
  end.

(** Player [p]'s reserve, for [p] 1 or 2. *)
Definition fence_count (g : QuoridorGame) (p : Z) : Z :=
  if p =? 1 then _p1_fence_count g else _p2_fence_count g.

(** The players of the calls that return true, in order. *)
Fixpoint actors (g : QuoridorGame) (cs : list call) : list (option Z) :=
  match cs with
  | [] => []
  | c :: cs' => (if succeeded g c then [actor c] else []) ++ actors (step g c) cs'
  end.

(** [p], then the other player, then [p] again, and so on. *)
Fixpoint alternating (p : Z) (l : list (option Z)) : Prop :=
  match l with
  | [] => True
  | q :: l' => q = Some p ∧ alternating (3 - p) l'
  end.

(** ** Pawns on the board *)

(** All hundred cells, as coordinates [(column, row)]. *)
Definition all_cells : list coord :=
  flat_map (λ row, map (λ col, (col, row)) (range 10)) (range 10).

(** The cells that hold player [p]'s pawn. *)
Definition pawn_cells (g : QuoridorGame) (p : Z) : list coord :=
  List.filter (pawn_at g p) all_cells.

(** ** What the board holds, and when the game is won *)

(** The further facts every reachable state satisfies: what each slot can
    hold, the three fenced edges, the untouched row 9, and the link between
    the winner field and the pawns. *)
Record Inv2 (g : QuoridorGame) : Prop := mkInv2 {
  inv2_slot0 : ∀ i j v, 0 ≤ i < 10 → 0 ≤ j < 10 →
    bget (_board g) i j 0 = Some v → v = VNone ∨ v = VInt 1 ∨ v = VInt 2;
  inv2_slot1 : ∀ i j v, 0 ≤ i < 10 → 0 ≤ j < 10 →
    bget (_board g) i j 1 = Some v → v = VNone ∨ v = VFence (mkFence "h");
  inv2_slot2 : ∀ i j v, 0 ≤ i < 10 → 0 ≤ j < 10 →
    bget (_board g) i j 2 = Some v → v = VNone ∨ v = VFence (mkFence "v");
  inv2_top : ∀ j, 0 ≤ j < 10 → bget (_board g) 0 j 1 = Some (VFence (mkFence "h"));
  inv2_left : ∀ i, 0 ≤ i ≤ 8 → bget (_board g) i 0 2 = Some (VFence (mkFence "v"));
  inv2_right : ∀ i, 0 ≤ i ≤ 8 → bget (_board g) i 9 2 = Some (VFence (mkFence "v"));
  inv2_row9 : ∀ j k, 0 ≤ j < 10 → 0 ≤ k < 3 → bget (_board g) 9 j k = Some VNone;
  inv2_winner : _winner g = None ∨ _winner g = Some 0 ∨ _winner g = Some 1;
  inv2_won1 : _winner g = Some 1 ↔
    ∃ i, 0 ≤ i ≤ 8 ∧ bget (_board g) i 8 0 = Some (VInt 1);
  inv2_won0 : _winner g = Some 0 ↔
    ∃ i, 0 ≤ i ≤ 8 ∧ bget (_board g) i 0 0 = Some (VInt 2)
}.

(** ** Counting along a game *)

(** The coordinate argument of a call. *)
Definition target (c : call) : coord :=
  match c with
  | MovePawn _ xy => xy
  | PlaceFence _ _ xy => xy
  end.

(** How many calls of [cs], made one after the other from [g], return
    true. *)
Fixpoint successes (g : QuoridorGame) (cs : list call) : nat :=
  match cs with
  | [] => 0
  | c :: cs' => ((if succeeded g c then 1 else 0) + successes (step g c) cs')%nat
  end.

(** How many of them are fence placements by player [p]. *)
Fixpoint placements (g : QuoridorGame) (cs : list call) (p : Z) : Z :=
  match cs with
  | [] => 0
  | c :: cs' =>
      (if fence_by p c && succeeded g c then 1 else 0) + placements (step g c) cs' p
  end.

(** ** [print_board] *)

(** What is written to standard output, together with how the code ends. *)
Definition W (A : Type) : Type := (string * outcome A)%type.

Definition wret {A} (a : A) : W A := (""%string, Ret a).

Definition wbind {A B} (m : W A) (k : A → W B) : W B :=
  match m with
  | (s, Ret a) => ((s ++ (k a).1)%string, (k a).2)
  | (s, Raise e) => (s, Raise e)
  end.

Notation "'wdo' x <- m 'in' k" := (wbind m (λ x, k))
  (at level 10, x name, m at level 100, k at level 200, only parsing).
Notation "m >>> k" := (wbind m (λ _, k))
  (at level 100, k at level 200, only parsing, right associativity).

(** [print(s, end="")]. *)
Definition print (s : string) : W unit := (s, Ret tt).

(** A subscript read inside the printing code. *)
Definition wread {A} (o : option A) : W A :=
  match o with
  | Some a => wret a
  | None => (""%string, Raise IndexError)
  end.

(** [a and b] inside the printing code. *)
Definition wand (a b : W bool) : W bool :=
  wdo x <- a in if x then b else wret false.

(** [for x in xs: body], with the position of [x] in [xs] at hand. *)
Fixpoint wfor_from {A} (n : nat) (xs : list A) (body : nat → A → W unit) : W unit :=
  match xs with
  | [] => wret tt
  | x :: xs' => body n x >>> wfor_from (S n) xs' body
  end.

Definition newline : string := String (Ascii.ascii_of_nat 10) EmptyString.

(** [x is not l[9]] for the element [x] met at position [n] of [l] by the
    loop: [l[9]] is read (and may raise), and the objects are the same
    exactly when [n] is 9, since the rows of the board and the cells of a row
    are lists of their own, never shared. *)
Definition is_not_9th {A} (n : nat) (l : list A) : W bool :=
  wdo _ <- wread (getitem l 9) in wret (negb (n =? 9)%nat).

Section Printing.

(** [str] of a [Fence] object: Python's default text for an object, with
    its address; left open. *)
Variable repr_Fence : Fence → string.

(** [str(v)]. *)
Definition py_str (v : value) : string :=
  match v with
  | VNone => "None"%string
  | VInt n => DecimalString.NilZero.string_of_int (Z.to_int n)
  | VFence f => repr_Fence f
  end.

Definition print_board (self : QuoridorGame) : W unit :=
  wfor_from 0 (_board self) (λ i sublist,
    wfor_from 0 sublist (λ j element,
      wdo h <- wand (wdo v <- wread (getitem element 1) in wret (negb (is_none v)))
                    (is_not_9th j sublist) in
      if h then print "  _ "
      else
        wdo h' <- wand (wdo v <- wread (getitem element 1) in wret (is_none v))
                       (is_not_9th j sublist) in
        if h' then print "    " else wret tt) >>>
    print newline >>>
    wfor_from 0 sublist (λ j element,
      (wdo w <- wand (wdo v <- wread (getitem element 2) in wret (is_none v))
                     (is_not_9th i (_board self)) in
       if w then print " "
       else
         wdo w' <- wand (wdo v <- wread (getitem element 2) in wret (negb (is_none v)))
                        (is_not_9th i (_board self)) in
         if w' then print "|" else wret tt) >>>
      (wdo p <- wand (wdo v <- wread (getitem element 0) in wret (is_none v))
                     (wand (is_not_9th j sublist) (is_not_9th i (_board self))) in
       if p then print "[ ]"
       else
         wdo p' <- wand (wdo v <- wread (getitem element 0) in wret (negb (is_none v)))
                        (wand (is_not_9th j sublist) (is_not_9th i (_board self))) in
         if p' then
           wdo v <- wread (getitem element 0) in
           print ("[" ++ py_str v ++ "]")
         else wret tt)) >>>
    print newline).

End Printing.

(** *** The picture of a state, line by line *)

(** Above cell [(col, row)]: its horizontal fence, or blanks. *)
Definition fence_text (g : QuoridorGame) (row col : Z) : string :=
  if occupied (bget (_board g) row col 1) then "  _ "%string else "    "%string.

(** Left of cell [(col, row)]: its vertical fence, or a blank. *)
Definition wall_text (g : QuoridorGame) (row col : Z) : string :=
  if occupied (bget (_board g) row col 2) then "|"%string else " "%string.

(** The cell itself, with the number of the pawn on it. *)
Definition pawn_text (g : QuoridorGame) (row col : Z) : string :=
  if pawn_at g 1 (col, row) then "[1]"%string
  else if pawn_at g 2 (col, row) then "[2]"%string
  else "[ ]"%string.

(** The pieces of a line, one after the other. *)
Definition join (ls : list string) : string := fold_right String.append ""%string ls.

Definition fence_line (g : QuoridorGame) (row : Z) : string :=
  join (map (fence_text g row) (range 9)).

Definition cell_line (g : QuoridorGame) (row : Z) : string :=
  join (map (λ col, (wall_text g row col ++ pawn_text g row col)%string) (range 9)
        ++ [wall_text g row 9]).

(** Ten fence lines, the first nine each followed by its line of cells, the
    tenth by an empty line. *)
Definition picture (g : QuoridorGame) : list string :=
  flat_map (λ row, [fence_line g row; cell_line g row]) (range 9)
  ++ [fence_line g 9; ""%string].

(** Each line followed by a newline. *)
Definition unlines (ls : list string) : string :=
  join (map (λ l, (l ++ newline)%string) ls).

(** The text holds no newline. *)
Definition one_line (s : string) : bool :=
  forallb (λ c, negb (Ascii.eqb c (Ascii.ascii_of_nat 10))) (list_ascii_of_string s).

(** * Proofs *)

Lemma py_index_spec (len : nat) (i : Z) :
  py_index len i =
  if valid (Z.of_nat len) i then Some (Z.to_nat (norm (Z.of_nat len) i)) else None.
Proof.
  unfold py_index, valid, norm.
  destruct (Z.leb_spec 0 i), (Z.ltb_spec i (Z.of_nat len)),
           (Z.leb_spec (- Z.of_nat len) i), (Z.ltb_spec i 0);
    simpl; try reflexivity; try (exfalso; lia).
  do 2 f_equal. lia.
Qed.

Lemma norm_range n i : valid n i = true → 0 ≤ norm n i < n.
Proof. unfold valid, norm. destruct (Z.ltb_spec i 0); lia. Qed.

Lemma norm_canon n i : 0 ≤ i → norm n i = i.
Proof. unfold norm. destruct (Z.ltb_spec i 0); lia. Qed.

Lemma valid_canon n i : 0 ≤ i < n → valid n i = true.
Proof. unfold valid. lia. Qed.

Lemma shape_row b r row :
  shape b → b !! r = Some row →
  length row = 10%nat ∧ Forall (λ cl : cell, length cl = 3%nat) row.
Proof. intros [_ Hb] Hr. exact (proj1 (Forall_lookup _ _) Hb r row Hr). Qed.

Lemma shape_cell b r c row cl :
  shape b → b !! r = Some row → row !! c = Some cl → length cl = 3%nat.
Proof.
  intros Hb Hr Hc. destruct (shape_row b r row Hb Hr) as [_ Hrow].
  exact (proj1 (Forall_lookup _ _) Hrow c cl Hc).
Qed.

Lemma bget_slot b i j k :
  shape b →
  bget b i j k =
  if valid 10 i && valid 10 j && valid 3 k
  then slot b (Z.to_nat (norm 10 i)) (Z.to_nat (norm 10 j)) (Z.to_nat (norm 3 k))
  else None.
Proof.
  intros Hb. unfold bget, getitem, slot.
  rewrite py_index_spec, (proj1 Hb). change (Z.of_nat 10) with 10.
  destruct (valid 10 i) eqn:Hi; simpl; [|reflexivity].
  destruct (b !! Z.to_nat (norm 10 i)) as [row|] eqn:Hrow; simpl.
  2:{ destruct (valid 10 j && valid 3 k); reflexivity. }
  destruct (shape_row _ _ _ Hb Hrow) as [Hlen _].
  rewrite py_index_spec, Hlen. change (Z.of_nat 10) with 10.
  destruct (valid 10 j) eqn:Hj; simpl; [|reflexivity].
  destruct (row !! Z.to_nat (norm 10 j)) as [cl|] eqn:Hcl; simpl.
  2:{ destruct (valid 3 k); reflexivity. }
  rewrite py_index_spec, (shape_cell _ _ _ _ _ Hb Hrow Hcl). change (Z.of_nat 3) with 3.
  destruct (valid 3 k); reflexivity.
Qed.

Lemma slot_is_Some b r c s :
  shape b → (r < 10)%nat → (c < 10)%nat → (s < 3)%nat → is_Some (slot b r c s).
Proof.
  intros Hb Hr Hc Hs. unfold slot.
  destruct (lookup_lt_is_Some_2 b r) as [row Hrow]; [rewrite (proj1 Hb); lia|].
  rewrite Hrow; simpl. destruct (shape_row _ _ _ Hb Hrow) as [Hlen _].
  destruct (lookup_lt_is_Some_2 row c) as [cl Hcl]; [lia|].
  rewrite Hcl; simpl. apply lookup_lt_is_Some_2.
  rewrite (shape_cell _ _ _ _ _ Hb Hrow Hcl). lia.
Qed.

Lemma bset_upd b i j k v :
  shape b →
  bset b i j k v =
  if valid 10 i && valid 10 j && valid 3 k
  then Some (upd b (Z.to_nat (norm 10 i)) (Z.to_nat (norm 10 j)) (Z.to_nat (norm 3 k)) v)
  else None.
Proof.
  intros Hb. unfold bset, getitem, setitem, upd.
  rewrite py_index_spec, (proj1 Hb). change (Z.of_nat 10) with 10.
  destruct (valid 10 i) eqn:Hi; simpl; [|reflexivity].
  pose proof (norm_range _ _ Hi) as Ri.
  destruct (lookup_lt_is_Some_2 b (Z.to_nat (norm 10 i))) as [row Hrow];
    [rewrite (proj1 Hb); lia|].
  rewrite Hrow; simpl. destruct (shape_row _ _ _ Hb Hrow) as [Hlen _].
  rewrite py_index_spec, Hlen. change (Z.of_nat 10) with 10.
  destruct (valid 10 j) eqn:Hj; simpl; [|reflexivity].
  pose proof (norm_range _ _ Hj) as Rj.
  destruct (lookup_lt_is_Some_2 row (Z.to_nat (norm 10 j))) as [cl Hcl]; [lia|].
  rewrite Hcl; simpl.
  rewrite py_index_spec, (shape_cell _ _ _ _ _ Hb Hrow Hcl). change (Z.of_nat 3) with 3.
  destruct (valid 3 k); reflexivity.
Qed.

Lemma shape_upd b r c s v : shape b → shape (upd b r c s v).
Proof.
  intros Hb. unfold upd.
  destruct (b !! r) as [row|] eqn:Hrow; [|exact Hb].
  destruct (row !! c) as [cl|] eqn:Hcl; [|exact Hb].
  destruct (shape_row _ _ _ Hb Hrow) as [Hlen Hcells].
  split; [rewrite length_insert; exact (proj1 Hb)|].
  apply Forall_insert; [exact (proj2 Hb)|].
  split; [rewrite length_insert; exact Hlen|].
  apply Forall_insert; [exact Hcells|].
  rewrite length_insert. exact (shape_cell _ _ _ _ _ Hb Hrow Hcl).
Qed.

Lemma slot_upd b r c s v r' c' s' :
  shape b → (r < 10)%nat → (c < 10)%nat → (s < 3)%nat →
  slot (upd b r c s v) r' c' s' =
  if decide (r = r' ∧ c = c' ∧ s = s') then Some v else slot b r' c' s'.
Proof.
  intros Hb Hr Hc Hs. unfold upd, slot.
  destruct (lookup_lt_is_Some_2 b r) as [row Hrow]; [rewrite (proj1 Hb); lia|].
  rewrite Hrow. destruct (shape_row _ _ _ Hb Hrow) as [Hlen _].
  destruct (lookup_lt_is_Some_2 row c) as [cl Hcl]; [lia|].
  rewrite Hcl. pose proof (shape_cell _ _ _ _ _ Hb Hrow Hcl) as Hcl3.
  destruct (decide (r = r')) as [<-|Nr].
  - rewrite list_lookup_insert_eq by (rewrite (proj1 Hb); lia). simpl.
    destruct (decide (c = c')) as [<-|Nc].
    + rewrite list_lookup_insert_eq by lia. simpl.
      destruct (decide (s = s')) as [<-|Ns].
      * rewrite list_lookup_insert_eq by lia.
        rewrite decide_True by done. reflexivity.
      * rewrite list_lookup_insert_ne by done.
        rewrite decide_False by (intros (_ & _ & ?); done).
        rewrite Hrow; simpl. rewrite Hcl; reflexivity.
    + rewrite list_lookup_insert_ne by done.
      rewrite decide_False by (intros (_ & ? & _); done).
      rewrite Hrow; reflexivity.
  - rewrite list_lookup_insert_ne by done.
    rewrite decide_False by (intros (? & _ & _); done). reflexivity.
Qed.

(** The same facts for the subscripts the code writes. *)

Lemma bget_norm b i j k v :
  shape b → bget b i j k = Some v →
  valid 10 i = true ∧ valid 10 j = true ∧ valid 3 k = true ∧
  bget b (norm 10 i) (norm 10 j) (norm 3 k) = Some v.
Proof.
  intros Hb H. rewrite bget_slot in H by done.
  destruct (valid 10 i) eqn:Hi, (valid 10 j) eqn:Hj, (valid 3 k) eqn:Hk; try discriminate.
  simpl in H. repeat split.
  pose proof (norm_range _ _ Hi). pose proof (norm_range _ _ Hj).
  pose proof (norm_range _ _ Hk).
  rewrite bget_slot by done.
  rewrite !valid_canon by lia. simpl.
  rewrite (norm_canon 10 (norm 10 i)), (norm_canon 10 (norm 10 j)),
          (norm_canon 3 (norm 3 k)) by lia.
  exact H.
Qed.

Lemma bget_valid b i j k :
  shape b → valid 10 i = true → valid 10 j = true → valid 3 k = true →
  is_Some (bget b i j k).
Proof.
  intros Hb Hi Hj Hk. rewrite bget_slot, Hi, Hj, Hk by done. simpl.
  pose proof (norm_range _ _ Hi). pose proof (norm_range _ _ Hj).
  pose proof (norm_range _ _ Hk). apply slot_is_Some; [done|lia..].
Qed.

Lemma bget_invalid_col b i j k : shape b → 10 ≤ j → bget b i j k = None.
Proof.
  intros Hb Hj. rewrite bget_slot by done.
  replace (valid 10 j) with false by (unfold valid; lia).
  rewrite andb_false_r. reflexivity.
Qed.

Lemma bset_shape b b' i j k v : shape b → bset b i j k v = Some b' → shape b'.
Proof.
  intros Hb H. rewrite bset_upd in H by done.
  destruct (valid 10 i && valid 10 j && valid 3 k); [|discriminate].
  injection H as <-. by apply shape_upd.
Qed.

Lemma bset_is_Some b i j k v w :
  shape b → bget b i j k = Some w → is_Some (bset b i j k v).
Proof.
  intros Hb H. destruct (bget_norm _ _ _ _ _ Hb H) as (Hi & Hj & Hk & _).
  rewrite bset_upd, Hi, Hj, Hk by done. simpl. eauto.
Qed.

Lemma bget_bset b b' i j k v i' j' k' :
  shape b → bset b i j k v = Some b' →
  0 ≤ i' < 10 → 0 ≤ j' < 10 → 0 ≤ k' < 3 →
  bget b' i' j' k' =
  if decide (norm 10 i = i' ∧ norm 10 j = j' ∧ norm 3 k = k') then Some v
  else bget b i' j' k'.
Proof.
  intros Hb H Ri Rj Rk. pose proof (bset_shape _ _ _ _ _ _ Hb H) as Hb'.
  rewrite bset_upd in H by done.
  destruct (valid 10 i) eqn:Hi, (valid 10 j) eqn:Hj, (valid 3 k) eqn:Hk; try discriminate.
  simpl in H. injection H as <-.
  pose proof (norm_range _ _ Hi). pose proof (norm_range _ _ Hj).
  pose proof (norm_range _ _ Hk).
  rewrite !bget_slot by done. rewrite !valid_canon by lia. simpl.
  rewrite (norm_canon 10 i'), (norm_canon 10 j'), (norm_canon 3 k') by lia.
  rewrite slot_upd by (done || lia).
  destruct (decide (norm 10 i = i' ∧ norm 10 j = j' ∧ norm 3 k = k')) as [(<- & <- & <-)|N].
  - rewrite decide_True by done. reflexivity.
  - rewrite decide_False; [reflexivity|].
    intros (E1 & E2 & E3). apply N. repeat split; lia.
Qed.

Lemma and_then_probe i j player i' j' k self :
  and_then (pawn_here i j player) (slot_free i' j' k) self =
  lift (probe (_board self) i j player i' j' k) self.
Proof.
  unfold and_then, pawn_here, slot_free, bind, board_get, ret, lift, probe.
  destruct (bget (_board self) i j 0) as [v|]; simpl; [|reflexivity].
  destruct (eq_player v player); [|reflexivity].
  destruct (bget (_board self) i' j' k); reflexivity.
Qed.

Lemma move_pawn_guarded player c self :
  out_of_bounds c || negb (eq_opt (_winner self) None)
    || negb (eq_opt player (Some (_current_player self))) = true →
  move_pawn player c self = (Ret false, self).
Proof. intros H. unfold move_pawn, bind, get_self. rewrite H. reflexivity. Qed.

Lemma move_pawn_unguarded player c self :
  out_of_bounds c || negb (eq_opt (_winner self) None)
    || negb (eq_opt player (Some (_current_player self))) = false →
  move_pawn player c self =
  match probe (_board self) (c.2 - 1) c.1 player c.2 c.1 1 with
  | None => (Raise IndexError, self)
  | Some true => move_pawn_success player (c.1, c.2 - 1) c self
  | Some false =>
    match probe (_board self) (c.2 + 1) c.1 player (c.2 + 1) c.1 1 with
    | None => (Raise IndexError, self)
    | Some true => move_pawn_success player (c.1, c.2 + 1) c self
    | Some false =>
      match probe (_board self) c.2 (c.1 - 1) player c.2 c.1 2 with
      | None => (Raise IndexError, self)
      | Some true => move_pawn_success player (c.1 - 1, c.2) c self
      | Some false =>
        match probe (_board self) c.2 (c.1 + 1) player c.2 (c.1 + 1) 2 with
        | None => (Raise IndexError, self)
        | Some true => move_pawn_success player (c.1 + 1, c.2) c self
        | Some false => (Ret false, self)
        end
      end
    end
  end.
Proof.
  intros H. unfold move_pawn. unfold bind at 1. unfold get_self. rewrite H.
  unfold bind at 1. rewrite and_then_probe. unfold lift.
  destruct (probe _ (c.2 - 1) _ _ _ _ _) as [[]|]; try reflexivity.
  unfold bind at 1. rewrite and_then_probe. unfold lift.
  destruct (probe _ (c.2 + 1) _ _ _ _ _) as [[]|]; try reflexivity.
  unfold bind at 1. rewrite and_then_probe. unfold lift.
  destruct (probe _ c.2 (c.1 - 1) _ _ _ _) as [[]|]; try reflexivity.
  unfold bind at 1. rewrite and_then_probe. unfold lift.
  destruct (probe _ c.2 (c.1 + 1) _ _ _ _) as [[]|]; reflexivity.
Qed.

(** The guard, read as facts. *)
Lemma guard_false player c self :
  out_of_bounds c || negb (eq_opt (_winner self) None)
    || negb (eq_opt player (Some (_current_player self))) = false →
  0 ≤ c.2 ≤ 8 ∧ 0 ≤ c.1 ∧ _winner self = None ∧ player = Some (_current_player self).
Proof.
  intros H. apply orb_false_elim in H as [H Hp]. apply orb_false_elim in H as [Hc Hw].
  unfold out_of_bounds in Hc.
  repeat (apply orb_false_elim in Hc as [Hc ?]).
  apply negb_false_iff in Hw, Hp.
  split; [lia|]. split; [lia|]. split.
  - destruct (_winner self); [discriminate|reflexivity].
  - destruct player as [p|]; [|discriminate]. simpl in Hp. f_equal. lia.
Qed.

Lemma move_pawn_success_run self p prev c b1 b2 :
  p = 1 ∨ p = 2 →
  bset (_board self) c.2 c.1 0 (VInt p) = Some b1 →
  bset b1 prev.2 prev.1 0 VNone = Some b2 →
  move_pawn_success (Some p) prev c self = (Ret true, move_result self p c b2).
Proof.
  intros Hp H1 H2. unfold move_pawn_success, move_result.
  unfold bind at 1. unfold board_set at 1. rewrite H1.
  unfold bind at 1. unfold board_set at 1. simpl _board. rewrite H2.
  destruct Hp as [-> | ->]; simpl; destruct (c.1 =? 8) eqn:E8, (c.1 =? 0) eqn:E0;
    reflexivity.
Qed.

Lemma on_board_spec c : on_board c = true ↔ 0 ≤ c.1 ≤ 8 ∧ 0 ≤ c.2 ≤ 8.
Proof. unfold on_board. rewrite !andb_true_iff, !Z.leb_le. lia. Qed.

Lemma adjacent_spec a c :
  adjacent a c = true ↔
  (a.1 = c.1 ∧ (a.2 = c.2 - 1 ∨ a.2 = c.2 + 1))
  ∨ (a.2 = c.2 ∧ (a.1 = c.1 - 1 ∨ a.1 = c.1 + 1)).
Proof.
  unfold adjacent. rewrite orb_true_iff, !andb_true_iff, !Z.eqb_eq. lia.
Qed.

Lemma pawn_at_spec g p c :
  pawn_at g p c = true ↔ bget (_board g) c.2 c.1 0 = Some (VInt p).
Proof.
  unfold pawn_at. destruct (bget _ _ _ _) as [[|q|]|]; split; try discriminate.
  - intros H. apply Z.eqb_eq in H. by subst.
  - intros [= ->]. apply Z.eqb_refl.
Qed.

Lemma eq_player_spec v p : eq_player v (Some p) = true ↔ v = VInt p.
Proof.
  destruct v; simpl; split; try discriminate.
  - intros H. apply Z.eqb_eq in H. by subst.
  - intros [= ->]. apply Z.eqb_refl.
Qed.

Lemma is_none_spec v : is_none v = true ↔ v = VNone.
Proof. destruct v; simpl; split; (discriminate || reflexivity). Qed.

Lemma probe_spec b i j p i' j' k :
  probe b i j (Some p) i' j' k = Some true ↔
  bget b i j 0 = Some (VInt p) ∧ bget b i' j' k = Some VNone.
Proof.
  unfold probe. destruct (bget b i j 0) as [v|]; simpl.
  2:{ split; [discriminate|intros [? _]; discriminate]. }
  destruct (eq_player v (Some p)) eqn:E.
  - apply eq_player_spec in E as ->.
    destruct (bget b i' j' k) as [w|]; simpl.
    + split.
      * intros [= H]. apply is_none_spec in H as ->. done.
      * intros [_ [= ->]]. reflexivity.
    + split; [discriminate|intros [_ ?]; discriminate].
  - split; [discriminate|]. intros [[= ->] _].
    rewrite (proj2 (eq_player_spec _ _)) in E by reflexivity. discriminate.
Qed.

Ltac norm_lia :=
  unfold norm, valid in *;
  repeat match goal with
         | H : context [?a <? ?b] |- _ => destruct (Z.ltb_spec a b)
         | H : context [?a <=? ?b] |- _ => destruct (Z.leb_spec a b)
         | |- context [?a <? ?b] => destruct (Z.ltb_spec a b)
         | |- context [?a <=? ?b] => destruct (Z.leb_spec a b)
         end;
  simpl in *; try discriminate; try lia.

(** A pawn read through any valid subscript stands inside the playing
    area, at the normalised position. *)
Lemma pawn_read g i j p :
  Inv g → bget (_board g) i j 0 = Some (VInt p) →
  (p = 1 ∨ p = 2) ∧ 0 ≤ norm 10 i ≤ 8 ∧ 0 ≤ norm 10 j ≤ 8 ∧
  valid 10 i = true ∧ valid 10 j = true ∧
  bget (_board g) (norm 10 i) (norm 10 j) 0 = Some (VInt p).
Proof.
  intros HI H. destruct (bget_norm _ _ _ _ _ (inv_shape _ HI) H) as (Hi & Hj & _ & H').
  change (norm 3 0) with 0 in H'.
  pose proof (norm_range _ _ Hi). pose proof (norm_range _ _ Hj).
  destruct (inv_pawn _ HI (norm 10 i) (norm 10 j) p ltac:(lia) ltac:(lia) H')
    as (Hp & ? & ?).
  repeat split; (done || lia).
Qed.

Lemma move_from g p prev c :
  Inv g → p = 1 ∨ p = 2 → on_board c = true →
  bget (_board g) prev.2 prev.1 0 = Some (VInt p) →
  ∃ b1 b2,
    bset (_board g) c.2 c.1 0 (VInt p) = Some b1 ∧
    bset b1 prev.2 prev.1 0 VNone = Some b2 ∧
    move_pawn_success (Some p) prev c g = (Ret true, move_result g p c b2).
Proof.
  intros HI Hp Hc Hprev. apply on_board_spec in Hc.
  pose proof (inv_shape _ HI) as Hb.
  destruct (bget_valid (_board g) c.2 c.1 0 Hb) as [w Hw]; [norm_lia..|].
  destruct (bset_is_Some _ _ _ _ (VInt p) _ Hb Hw) as [b1 H1].
  pose proof (bset_shape _ _ _ _ _ _ Hb H1) as Hb1.
  destruct (bget_norm _ _ _ _ _ Hb Hprev) as (Vi & Vj & Vk & _).
  destruct (bget_valid b1 prev.2 prev.1 0 Hb1 Vi Vj Vk) as [w' Hw'].
  destruct (bset_is_Some _ _ _ _ VNone _ Hb1 Hw') as [b2 H2].
  exists b1, b2. split; [done|]. split; [done|].
  by apply (move_pawn_success_run _ _ _ _ b1).
Qed.

Lemma probe_dir g p c src :
  Inv g → on_board c = true → adjacent src c = true →
  probe (_board g) src.2 src.1 (Some p)
        (edge_slot src c).1.1 (edge_slot src c).1.2 (edge_slot src c).2
  = Some (steps_from g p c src).
Proof.
  intros HI Hc Ha. apply on_board_spec in Hc. apply adjacent_spec in Ha.
  pose proof (inv_shape _ HI) as Hb.
  unfold steps_from, probe.
  destruct (bget_valid (_board g) src.2 src.1 0 Hb) as [v Hv]; [norm_lia..|].
  rewrite Hv. simpl.
  destruct (eq_player v (Some p)) eqn:E.
  - apply eq_player_spec in E as ->.
    destruct (pawn_read _ _ _ _ HI Hv) as (_ & Hr & Hcn & _ & _ & _).
    assert (Hsrc : on_board src = true) by (apply on_board_spec; norm_lia).
    rewrite Hsrc, (proj2 (pawn_at_spec g p src) Hv). simpl.
    unfold edge_open.
    destruct (bget_valid (_board g) (edge_slot src c).1.1 (edge_slot src c).1.2
                (edge_slot src c).2 Hb) as [w Hw].
    + unfold edge_slot. destruct (src.1 =? c.1); simpl; norm_lia.
    + unfold edge_slot. destruct (src.1 =? c.1); simpl; norm_lia.
    + unfold edge_slot. destruct (src.1 =? c.1); reflexivity.
    + rewrite Hw. reflexivity.
  - assert (pawn_at g p src = false) as ->.
    { destruct (pawn_at g p src) eqn:P; [|reflexivity].
      apply pawn_at_spec in P. rewrite Hv in P. injection P as ->.
      rewrite (proj2 (eq_player_spec _ _)) in E by reflexivity. discriminate. }
    rewrite andb_false_r. reflexivity.
Qed.

Lemma probe_north g p c :
  Inv g → on_board c = true →
  probe (_board g) (c.2 - 1) c.1 (Some p) c.2 c.1 1
  = Some (steps_from g p c (c.1, c.2 - 1)).
Proof.
  intros HI Hc. rewrite <- (probe_dir g p c (c.1, c.2 - 1) HI Hc).
  - unfold edge_slot. simpl. rewrite Z.eqb_refl, Z.max_r by lia. reflexivity.
  - apply adjacent_spec. simpl. lia.
Qed.

Lemma probe_south g p c :
  Inv g → on_board c = true →
  probe (_board g) (c.2 + 1) c.1 (Some p) (c.2 + 1) c.1 1
  = Some (steps_from g p c (c.1, c.2 + 1)).
Proof.
  intros HI Hc. rewrite <- (probe_dir g p c (c.1, c.2 + 1) HI Hc).
  - unfold edge_slot. simpl. rewrite Z.eqb_refl, Z.max_l by lia. reflexivity.
  - apply adjacent_spec. simpl. lia.
Qed.

Lemma probe_west g p c :
  Inv g → on_board c = true →
  probe (_board g) c.2 (c.1 - 1) (Some p) c.2 c.1 2
  = Some (steps_from g p c (c.1 - 1, c.2)).
Proof.
  intros HI Hc. rewrite <- (probe_dir g p c (c.1 - 1, c.2) HI Hc).
  - unfold edge_slot. simpl.
    replace (c.1 - 1 =? c.1) with false by lia.
    simpl. rewrite Z.max_r by lia. reflexivity.
  - apply adjacent_spec. simpl. lia.
Qed.

Lemma probe_east g p c :
  Inv g → on_board c = true →
  probe (_board g) c.2 (c.1 + 1) (Some p) c.2 (c.1 + 1) 2
  = Some (steps_from g p c (c.1 + 1, c.2)).
Proof.
  intros HI Hc. rewrite <- (probe_dir g p c (c.1 + 1, c.2) HI Hc).
  - unfold edge_slot. simpl.
    replace (c.1 + 1 =? c.1) with false by lia.
    simpl. rewrite Z.max_l by lia. reflexivity.
  - apply adjacent_spec. simpl. lia.
Qed.

(** On the playing area, once the guard lets the call through, the four
    branches are tried in the order north, south, west, east. *)
Lemma move_pawn_on_board g c :
  Inv g → on_board c = true → _winner g = None →
  move_pawn (Some (_current_player g)) c g =
  let p := _current_player g in
  if steps_from g p c (c.1, c.2 - 1) then move_pawn_success (Some p) (c.1, c.2 - 1) c g
  else if steps_from g p c (c.1, c.2 + 1) then move_pawn_success (Some p) (c.1, c.2 + 1) c g
  else if steps_from g p c (c.1 - 1, c.2) then move_pawn_success (Some p) (c.1 - 1, c.2) c g
  else if steps_from g p c (c.1 + 1, c.2) then move_pawn_success (Some p) (c.1 + 1, c.2) c g
  else (Ret false, g).
Proof.
  intros HI Hc Hw. rewrite move_pawn_unguarded.
  - rewrite probe_north, probe_south, probe_west, probe_east by done. reflexivity.
  - rewrite Hw. simpl. rewrite Z.eqb_refl. simpl.
    apply on_board_spec in Hc. unfold out_of_bounds.
    repeat (apply orb_false_intro); lia.
Qed.

(** Off the playing area nothing moves: the call is refused, or the read
    of a column beyond the board raises. *)
Lemma move_pawn_off_board g player c :
  Inv g → on_board c = false →
  move_pawn player c g = (Ret false, g) ∨ move_pawn player c g = (Raise IndexError, g).
Proof.
  intros HI Hc.
  destruct (out_of_bounds c || negb (eq_opt (_winner g) None)
            || negb (eq_opt player (Some (_current_player g)))) eqn:G.
  { left. by apply move_pawn_guarded. }
  rewrite (move_pawn_unguarded _ _ _ G).
  destruct (guard_false _ _ _ G) as (Hr & Hcol & _ & ->).
  assert (9 ≤ c.1) as Hc9.
  { destruct (Z.le_gt_cases 9 c.1); [done|].
    rewrite (proj2 (on_board_spec c)) in Hc by lia. discriminate. }
  pose proof (inv_shape _ HI) as Hb.
  set (p := _current_player g).
  destruct (probe _ (c.2 - 1) _ _ _ _ _) as [[]|] eqn:P1; [|clear P1|by right].
  { apply probe_spec in P1 as [P _]. apply (pawn_read _ _ _ _ HI) in P. norm_lia. }
  destruct (probe _ (c.2 + 1) _ _ _ _ _) as [[]|] eqn:P2; [|clear P2|by right].
  { apply probe_spec in P2 as [P _]. apply (pawn_read _ _ _ _ HI) in P. norm_lia. }
  destruct (probe _ c.2 (c.1 - 1) _ _ _ _) as [[]|] eqn:P3; [|clear P3|by right].
  { apply probe_spec in P3 as [P F]. apply (pawn_read _ _ _ _ HI) in P.
    assert (c.1 = 9) as E9 by norm_lia. rewrite E9 in F.
    by destruct (inv_right _ HI c.2 Hr). }
  destruct (probe _ c.2 (c.1 + 1) _ _ _ _) as [[]|] eqn:P4; [|by left|by right].
  apply probe_spec in P4 as [P _]. apply (pawn_read _ _ _ _ HI) in P. norm_lia.
Qed.

(** Every way a call of [move_pawn] can end. *)
Lemma move_pawn_spec g player c :
  Inv g →
  move_pawn player c g = (Ret false, g) ∨
  move_pawn player c g = (Raise IndexError, g) ∨
  ∃ prev b1 b2,
    player = Some (_current_player g) ∧ _winner g = None ∧
    on_board c = true ∧ adjacent prev c = true ∧
    steps_from g (_current_player g) c prev = true ∧
    bset (_board g) c.2 c.1 0 (VInt (_current_player g)) = Some b1 ∧
    bset b1 prev.2 prev.1 0 VNone = Some b2 ∧
    move_pawn player c g = (Ret true, move_result g (_current_player g) c b2).
Proof.
  intros HI.
  destruct (on_board c) eqn:Hc.
  2:{ destruct (move_pawn_off_board g player c HI Hc); auto. }
  destruct (out_of_bounds c || negb (eq_opt (_winner g) None)
            || negb (eq_opt player (Some (_current_player g)))) eqn:G.
  { left. by apply move_pawn_guarded. }
  destruct (guard_false _ _ _ G) as (_ & _ & Hw & ->).
  rewrite (move_pawn_on_board g c HI Hc Hw). cbv zeta.
  set (p := _current_player g).
  assert (∀ prev, steps_from g p c prev = true →
    ∃ b1 b2, bset (_board g) c.2 c.1 0 (VInt p) = Some b1 ∧
      bset b1 prev.2 prev.1 0 VNone = Some b2 ∧
      move_pawn_success (Some p) prev c g = (Ret true, move_result g p c b2)) as K.
  { intros prev Hs. unfold steps_from in Hs.
    apply andb_true_iff in Hs as [Hs _]. apply andb_true_iff in Hs as [_ Hp].
    apply pawn_at_spec in Hp.
    exact (move_from g p prev c HI (inv_turn _ HI) Hc Hp). }
  assert (∀ prev, steps_from g p c prev = true → adjacent prev c = true →
    ∃ prev' b1 b2, Some p = Some p ∧ _winner g = None ∧ true = true ∧
      adjacent prev' c = true ∧ steps_from g p c prev' = true ∧
      bset (_board g) c.2 c.1 0 (VInt p) = Some b1 ∧
      bset b1 prev'.2 prev'.1 0 VNone = Some b2 ∧
      move_pawn_success (Some p) prev c g = (Ret true, move_result g p c b2)) as K'.
  { intros prev Hs Ha. destruct (K prev Hs) as (b1 & b2 & H1 & H2 & H3).
    exists prev, b1, b2. done. }
  destruct (steps_from g p c (c.1, c.2 - 1)) eqn:S1; cbv iota.
  { right; right. apply K'; [done|apply adjacent_spec; simpl; lia]. }
  destruct (steps_from g p c (c.1, c.2 + 1)) eqn:S2; cbv iota.
  { right; right. apply K'; [done|apply adjacent_spec; simpl; lia]. }
  destruct (steps_from g p c (c.1 - 1, c.2)) eqn:S3; cbv iota.
  { right; right. apply K'; [done|apply adjacent_spec; simpl; lia]. }
  destruct (steps_from g p c (c.1 + 1, c.2)) eqn:S4; cbv iota.
  { right; right. apply K'; [done|apply adjacent_spec; simpl; lia]. }
  by left.
Qed.

(** ** [place_fence] on any state *)

(** A slot that can be read can be written, whatever the board's shape. *)
Lemma bset_after_bget b i j k v w :
  bget b i j k = Some w → is_Some (bset b i j k v).
Proof.
  unfold bget, bset, getitem, setitem. intros H.
  destruct (py_index (length b) i) as [n|]; simpl in *; [|discriminate].
  destruct (b !! n) as [row|]; simpl in *; [|discriminate].
  destruct (py_index (length row) j) as [m|]; simpl in *; [|discriminate].
  destruct (row !! m) as [cl|]; simpl in *; [|discriminate].
  destruct (py_index (length cl) k) as [s|]; simpl in *; [|discriminate].
  eauto.
Qed.

Lemma fence_placed_success_run player self :
  fence_placed_success player self =
  (Ret (fence_answer player), fence_result self player (_board self)).
Proof.
  unfold fence_placed_success, fence_result, fence_answer.
  destruct self as [b n1 n2 cur w].
  destruct player as [p|]; simpl; [|reflexivity].
  destruct (p =? 1); [reflexivity|]. destruct (p =? 2); reflexivity.
Qed.

Lemma place_fence_guarded player orient c self :
  fence_guard self player c = true →
  place_fence player orient c self = (Ret (Some false), self).
Proof.
  unfold fence_guard, place_fence, bind, get_self. intros H.
  apply orb_true_iff in H as [-> | ->]; [reflexivity|].
  destruct (_ || _ || _); reflexivity.
Qed.

Lemma and_then_probe_fence orient o i j k self :
  and_then (ret (String.eqb orient o)) (slot_free i j k) self =
  lift (probe_fence (_board self) orient o i j k) self.
Proof.
  unfold and_then, slot_free, bind, board_get, ret, lift, probe_fence.
  destruct (String.eqb orient o); [|reflexivity].
  destruct (bget (_board self) i j k); reflexivity.
Qed.

Lemma place_fence_unguarded player orient c self :
  fence_guard self player c = false →
  place_fence player orient c self =
  match probe_fence (_board self) orient "h" c.2 c.1 1 with
  | None => (Raise IndexError, self)
  | Some true =>
      bind (board_set c.2 c.1 1 (VFence (mkFence orient)))
           (λ _, fence_placed_success player) self
  | Some false =>
    match probe_fence (_board self) orient "v" c.2 c.1 2 with
    | None => (Raise IndexError, self)
    | Some true =>
        bind (board_set c.2 c.1 2 (VFence (mkFence orient)))
             (λ _, fence_placed_success player) self
    | Some false => (Ret (Some false), self)
    end
  end.
Proof.
  intros G. unfold fence_guard in G. apply orb_false_elim in G as [G1 G2].
  unfold place_fence. unfold bind at 1. unfold get_self. rewrite G1, G2.
  unfold bind at 1. rewrite and_then_probe_fence. unfold lift.
  destruct (probe_fence _ _ "h" _ _ _) as [[]|]; try reflexivity.
  unfold bind at 1. rewrite and_then_probe_fence. unfold lift.
  destruct (probe_fence _ _ "v" _ _ _) as [[]|]; reflexivity.
Qed.

Lemma probe_fence_spec b orient o i j k :
  probe_fence b orient o i j k = Some true ↔ orient = o ∧ bget b i j k = Some VNone.
Proof.
  unfold probe_fence. destruct (String.eqb_spec orient o) as [->|N].
  - destruct (bget b i j k) as [w|]; simpl.
    + split.
      * intros [= H]. apply is_none_spec in H as ->. done.
      * intros [_ [= ->]]. reflexivity.
    + split; [discriminate|intros [_ ?]; discriminate].
  - split; [discriminate|]. intros [? _]. done.
Qed.

(** Every way a call of [place_fence] can end. *)
Lemma place_fence_spec player orient c self :
  place_fence player orient c self = (Ret (Some false), self) ∨
  place_fence player orient c self = (Raise IndexError, self) ∨
  ∃ k b',
    (k = 1 ∧ orient = "h"%string ∨ k = 2 ∧ orient = "v"%string) ∧
    fence_guard self player c = false ∧
    bget (_board self) c.2 c.1 k = Some VNone ∧
    bset (_board self) c.2 c.1 k (VFence (mkFence orient)) = Some b' ∧
    place_fence player orient c self =
      (Ret (fence_answer player), fence_result self player b').
Proof.
  destruct (fence_guard self player c) eqn:G.
  { left. by apply place_fence_guarded. }
  rewrite (place_fence_unguarded _ _ _ _ G).
  assert (∀ k, bget (_board self) c.2 c.1 k = Some VNone →
    ∃ b', bset (_board self) c.2 c.1 k (VFence (mkFence orient)) = Some b' ∧
      bind (board_set c.2 c.1 k (VFence (mkFence orient)))
           (λ _, fence_placed_success player) self
      = (Ret (fence_answer player), fence_result self player b')) as K.
  { intros k Hk. destruct (bset_after_bget _ _ _ _ (VFence (mkFence orient)) _ Hk)
      as [b' Hb']. exists b'. split; [done|].
    unfold bind, board_set. rewrite Hb'. rewrite fence_placed_success_run.
    reflexivity. }
  destruct (probe_fence _ _ "h" _ _ _) as [[]|] eqn:P1; [| |by right; left].
  { apply probe_fence_spec in P1 as [Eo R]. destruct (K 1 R) as (b' & Hb' & Hrun).
    right; right. exists 1, b'. rewrite Hrun. repeat split; auto. }
  destruct (probe_fence _ _ "v" _ _ _) as [[]|] eqn:P2; [|by left|by right; left].
  apply probe_fence_spec in P2 as [Eo R]. destruct (K 2 R) as (b' & Hb' & Hrun).
  right; right. exists 2, b'. rewrite Hrun. repeat split; auto.
Qed.

(** ** The invariant holds in every reachable state *)

Lemma moved_board b p c prev b1 b2 :
  shape b → on_board c = true → on_board prev = true →
  bset b c.2 c.1 0 (VInt p) = Some b1 →
  bset b1 prev.2 prev.1 0 VNone = Some b2 →
  shape b2 ∧
  ∀ i j k, 0 ≤ i < 10 → 0 ≤ j < 10 → 0 ≤ k < 3 →
    bget b2 i j k =
    if decide (i = prev.2 ∧ j = prev.1 ∧ k = 0) then Some VNone
    else if decide (i = c.2 ∧ j = c.1 ∧ k = 0) then Some (VInt p)
    else bget b i j k.
Proof.
  intros Hb Hc Hprev H1 H2.
  apply on_board_spec in Hc. apply on_board_spec in Hprev.
  pose proof (bset_shape _ _ _ _ _ _ Hb H1) as Hb1.
  split; [exact (bset_shape _ _ _ _ _ _ Hb1 H2)|].
  intros i j k Hi Hj Hk.
  rewrite (bget_bset _ _ _ _ _ _ _ _ _ Hb1 H2 Hi Hj Hk).
  rewrite (bget_bset _ _ _ _ _ _ _ _ _ Hb H1 Hi Hj Hk).
  rewrite !norm_canon by lia.
  repeat case_decide; try reflexivity; exfalso; lia.
Qed.

Lemma Inv_move_result g c prev b1 b2 :
  Inv g → on_board c = true → adjacent prev c = true →
  steps_from g (_current_player g) c prev = true →
  bset (_board g) c.2 c.1 0 (VInt (_current_player g)) = Some b1 →
  bset b1 prev.2 prev.1 0 VNone = Some b2 →
  Inv (move_result g (_current_player g) c b2).
Proof.
  intros HI Hc Ha Hs H1 H2. set (p := _current_player g) in *.
  unfold steps_from in Hs. apply andb_true_iff in Hs as [Hs _].
  apply andb_true_iff in Hs as [Hprev Hp]. apply pawn_at_spec in Hp.
  destruct (moved_board _ _ _ _ _ _ (inv_shape _ HI) Hc Hprev H1 H2) as [Hb2 Hget].
  pose proof (proj1 (on_board_spec _) Hc) as Rc.
  pose proof (proj1 (on_board_spec _) Hprev) as Rp.
  pose proof (proj1 (adjacent_spec _ _) Ha) as Ra.
  pose proof (inv_turn _ HI) as Ht. fold p in Ht.
  constructor; simpl.
  - exact Hb2.
  - lia.
  - exact (inv_p1 _ HI).
  - exact (inv_p2 _ HI).
  - intros i j q Hi Hj. rewrite Hget by lia.
    repeat case_decide; intros E; try discriminate.
    + injection E as <-. split; [done|lia].
    + exact (inv_pawn _ HI i j q Hi Hj E).
  - intros q i j i' j' Hi Hj Hi' Hj'. rewrite !Hget by lia.
    repeat case_decide; intros E1 E2; try discriminate; try lia.
    + injection E1 as <-.
      destruct (inv_uniq _ HI p i' j' prev.2 prev.1) as [? ?]; try done; try lia.
    + injection E2 as <-.
      destruct (inv_uniq _ HI p i j prev.2 prev.1) as [? ?]; try done; try lia.
    + exact (inv_uniq _ HI q i j i' j' Hi Hj Hi' Hj' E1 E2).
  - intros i Hi. rewrite Hget by lia.
    rewrite !decide_False by lia. exact (inv_right _ HI i Hi).
  - exists c.2, c.1, p. split; [lia|]. split; [lia|].
    rewrite Hget by lia. rewrite decide_False by lia.
    rewrite decide_True by done. reflexivity.
Qed.

Lemma Inv_move_pawn g player c : Inv g → Inv (move_pawn player c g).2.
Proof.
  intros HI.
  destruct (move_pawn_spec g player c HI)
    as [-> | [-> | (prev & b1 & b2 & _ & _ & Hc & Ha & Hs & H1 & H2 & ->)]];
    try exact HI.
  simpl. by apply (Inv_move_result g c prev b1 b2).
Qed.

Lemma fence_guard_false self player c :
  fence_guard self player c = false →
  0 ≤ c.2 ≤ 8 ∧ 0 ≤ c.1 ∧ _winner self = None ∧
  (player = None ∨ player = Some (_current_player self)) ∧
  (player = Some 1 → _p1_fence_count self ≠ 0) ∧
  (player = Some 2 → _p2_fence_count self ≠ 0).
Proof.
  unfold fence_guard, out_of_bounds. intros H.
  repeat (apply orb_false_elim in H as [H ?]).
  split; [lia|]. split; [lia|]. split.
  { destruct (_winner self); [discriminate|reflexivity]. }
  destruct player as [p|]; simpl in *.
  - split; [right; f_equal; lia|].
    split; intros [= ->]; simpl in *; lia.
  - split; [by left|]. split; discriminate.
Qed.

Lemma Inv_place_fence g player orient c : Inv g → Inv (place_fence player orient c g).2.
Proof.
  intros HI.
  destruct (place_fence_spec player orient c g)
    as [-> | [-> | (k & b' & Hk & G & R & W & ->)]]; try exact HI.
  simpl. pose proof (inv_shape _ HI) as Hb.
  pose proof (bset_shape _ _ _ _ _ _ Hb W) as Hb'.
  destruct (fence_guard_false _ _ _ G) as (Hr & Hc & _ & Hpl & N1 & N2).
  assert (∀ i j, 0 ≤ i < 10 → 0 ≤ j < 10 → bget b' i j 0 = bget (_board g) i j 0) as P.
  { intros i j Hi Hj. rewrite (bget_bset _ _ _ _ _ _ _ _ _ Hb W) by lia.
    rewrite decide_False; [reflexivity|].
    intros (_ & _ & E). destruct Hk as [[-> _] | [-> _]]; discriminate. }
  assert (∀ i, 0 ≤ i ≤ 8 → bget b' i 9 2 ≠ Some VNone) as F.
  { intros i Hi. rewrite (bget_bset _ _ _ _ _ _ _ _ _ Hb W) by lia.
    case_decide; [discriminate|]. exact (inv_right _ HI i Hi). }
  assert (shape b' ∧
    (∀ i j p, 0 ≤ i < 10 → 0 ≤ j < 10 →
       bget b' i j 0 = Some (VInt p) → (p = 1 ∨ p = 2) ∧ i ≤ 8 ∧ j ≤ 8) ∧
    (∀ p i j i' j', 0 ≤ i < 10 → 0 ≤ j < 10 → 0 ≤ i' < 10 → 0 ≤ j' < 10 →
       bget b' i j 0 = Some (VInt p) → bget b' i' j' 0 = Some (VInt p) →
       i = i' ∧ j = j') ∧
    (∃ i j p, 0 ≤ i < 10 ∧ 0 ≤ j < 10 ∧ bget b' i j 0 = Some (VInt p)))
    as (B1 & B2 & B3 & B4).
  { split; [done|]. split; [|split].
    - intros i j p Hi Hj. rewrite P by done. by apply (inv_pawn _ HI).
    - intros p i j i' j' Hi Hj Hi' Hj'. rewrite !P by done. by apply (inv_uniq _ HI).
    - destruct (inv_some _ HI) as (i & j & p & Hi & Hj & E).
      exists i, j, p. rewrite P by done. done. }
  pose proof (inv_p1 _ HI). pose proof (inv_p2 _ HI). pose proof (inv_turn _ HI).
  unfold fence_result.
  destruct player as [q|]; simpl.
  - destruct Hpl as [|[= ->]]; [discriminate|].
    destruct (Z.eqb_spec (_current_player g) 1) as [E1|E1].
    { constructor; simpl; try done; try lia.
      specialize (N1 ltac:(by rewrite E1)). lia. }
    destruct (Z.eqb_spec (_current_player g) 2) as [E2|E2].
    { constructor; simpl; try done; try lia.
      specialize (N2 ltac:(by rewrite E2)). lia. }
    lia.
  - constructor; simpl; done.
Qed.

Lemma new_game_fields : new_game = mkGame new_board 10 10 1 None.
Proof. vm_compute. reflexivity. Qed.

Lemma init_returns : (init fresh_fields).1 = Ret tt.
Proof. vm_compute. reflexivity. Qed.

Ltac ten i :=
  let H := fresh in
  assert (i = 0 ∨ i = 1 ∨ i = 2 ∨ i = 3 ∨ i = 4 ∨ i = 5 ∨ i = 6 ∨ i = 7 ∨ i = 8 ∨ i = 9)
    as H by lia;
  repeat (destruct H as [H|H]); subst i.

Lemma new_board_pawns i j p :
  0 ≤ i < 10 → 0 ≤ j < 10 → bget new_board i j 0 = Some (VInt p) →
  (i = 0 ∧ j = 4 ∧ p = 1) ∨ (i = 8 ∧ j = 4 ∧ p = 2).
Proof.
  intros Hi Hj. ten i; ten j; vm_compute; intros E; try discriminate;
    injection E as <-; auto.
Qed.

Lemma Inv_new_game : Inv new_game.
Proof.
  rewrite new_game_fields. constructor; simpl; try lia.
  - split; [reflexivity|]. unfold new_board.
    repeat (constructor; [split; [reflexivity|repeat (constructor; [reflexivity|])];
                          constructor|]).
    constructor.
  - intros i j p Hi Hj E. destruct (new_board_pawns i j p Hi Hj E); lia.
  - intros p i j i' j' Hi Hj Hi' Hj' E E'.
    destruct (new_board_pawns i j p Hi Hj E), (new_board_pawns i' j' p Hi' Hj' E'); lia.
  - intros i Hi. ten i; try lia; vm_compute; discriminate.
  - exists 0, 4, 1. split; [lia|]. split; [lia|]. reflexivity.
Qed.

Lemma Inv_step g c : Inv g → Inv (step g c).
Proof.
  intros HI. unfold step, run_call. destruct c as [player xy | player orient xy].
  - pose proof (Inv_move_pawn g player xy HI) as H.
    unfold bind. destruct (move_pawn player xy g) as [[b|e] g']; exact H.
  - by apply Inv_place_fence.
Qed.

Lemma reachable_Inv g : reachable g → Inv g.
Proof. induction 1; [exact Inv_new_game|by apply Inv_step]. Qed.

Lemma reachable_play g cs : reachable g → reachable (play g cs).
Proof.
  revert g. induction cs as [|c cs IH]; intros g Hg; [exact Hg|].
  simpl. apply IH. by constructor.
Qed.

Lemma call_ending g c : Inv g → ending g c.
Proof.
  intros HI. destruct c as [player xy | player orient xy].
  - destruct (move_pawn_spec g player xy HI)
      as [E | [E | (prev & b1 & b2 & -> & Hw & Hc & Ha & Hs & H1 & H2 & E)]].
    + apply refused; unfold answer, step, run_call, bind; rewrite E; reflexivity.
    + apply raised; unfold answer, step, run_call, bind; rewrite E; reflexivity.
    + apply (moved g _ xy prev b1 b2); try done;
        unfold answer, step, run_call, bind; rewrite E; reflexivity.
  - destruct (place_fence_spec player orient xy g)
      as [E | [E | (k & b' & Hk & G & R & W & E)]].
    + apply refused; unfold answer, step, run_call; rewrite E; reflexivity.
    + apply raised; unfold answer, step, run_call; rewrite E; reflexivity.
    + apply (fenced g _ player orient xy k b'); try done;
        unfold answer, step, run_call; rewrite E; reflexivity.
Qed.

Lemma fence_answer_player player self xy :
  fence_guard self player xy = false → (_current_player self = 1 ∨ _current_player self = 2) →
  (player = None ∧ fence_answer player = None ∧
   ∀ b', fence_result self player b' =
         mkGame b' (_p1_fence_count self) (_p2_fence_count self)
                (_current_player self) (_winner self))
  ∨ (player = Some 1 ∧ _current_player self = 1 ∧ fence_answer player = Some true ∧
     0 ≠ _p1_fence_count self ∧
     ∀ b', fence_result self player b' =
           mkGame b' (_p1_fence_count self - 1) (_p2_fence_count self) 2 (_winner self))
  ∨ (player = Some 2 ∧ _current_player self = 2 ∧ fence_answer player = Some true ∧
     0 ≠ _p2_fence_count self ∧
     ∀ b', fence_result self player b' =
           mkGame b' (_p1_fence_count self) (_p2_fence_count self - 1) 1 (_winner self)).
Proof.
  intros G Ht. destruct (fence_guard_false _ _ _ G) as (_ & _ & _ & Hpl & N1 & N2).
  destruct Hpl as [-> | ->].
  - left. done.
  - destruct Ht as [E | E]; rewrite E in *.
    + right; left. repeat split; try done. specialize (N1 eq_refl). lia.
    + right; right. repeat split; try done. specialize (N2 eq_refl). lia.
Qed.

(** ** The guard *)

Lemma game_over_call g c :
  _winner g ≠ None → answer g c = Ret (Some false) ∧ step g c = g.
Proof.
  intros Hw. assert (negb (eq_opt (_winner g) None) = true) as E.
  { destruct (_winner g); [reflexivity|done]. }
  destruct c as [player xy | player orient xy]; unfold answer, step, run_call.
  - unfold bind. rewrite move_pawn_guarded; [done|].
    rewrite E, orb_true_r. reflexivity.
  - rewrite place_fence_guarded; [done|].
    unfold fence_guard. rewrite E, orb_true_r. reflexivity.
Qed.

(** The coordinates the guard does refuse: a negative column, a negative
    row, a row beyond 8. *)
Lemma refused_coordinates g c xy :
  xy.1 < 0 ∨ xy.2 < 0 ∨ 8 < xy.2 →
  (∃ player, c = MovePawn player xy) ∨ (∃ player orient, c = PlaceFence player orient xy) →
  answer g c = Ret (Some false) ∧ step g c = g.
Proof.
  intros Hxy Hc. assert (out_of_bounds xy = true) as E.
  { unfold out_of_bounds. rewrite !orb_true_iff. lia. }
  destruct Hc as [[player ->] | (player & orient & ->)]; unfold answer, step, run_call.
  - unfold bind. rewrite move_pawn_guarded; [done|]. rewrite E. reflexivity.
  - rewrite place_fence_guarded; [done|]. unfold fence_guard. rewrite E. reflexivity.
Qed.

(** ** The end of the game and the win query *)

(** C10.  [is_winner] compares its argument with the winner field by plain
    equality: in every state where no winner has been decided, the query
    with [None] as the player answers true. *)
Theorem is_winner_None_without_winner g :
  _winner g = None → is_winner g None = true.
Proof. intros H. unfold is_winner. rewrite H. reflexivity. Qed.

Lemma is_winner_None_without_winner_witness :
  _winner new_game = None ∧ is_winner new_game None = true.
Proof.
  split; [reflexivity|].
  apply (is_winner_None_without_winner new_game). reflexivity.
Defined.

(** C6.  Once [is_winner] answers true for a player number (so the winner
    field is set), the game is over: whatever calls follow, the state, and
    with it the winner, stays as it is, and each of these calls returns
    false. *)
Theorem game_over_forever g (p : Z) :
  is_winner g (Some p) = true →
  ∀ cs c,
    play g cs = g ∧ _winner (play g cs) = Some p ∧
    answer (play g cs) c = Ret (Some false).
Proof.
  intros H. unfold is_winner in H.
  assert (_winner g = Some p) as Hw.
  { destruct (_winner g) as [w|]; simpl in H; [|discriminate].
    destruct (Z.eqb_spec w p); [by subst|discriminate]. }
  assert (_winner g ≠ None) as Hn by (rewrite Hw; discriminate).
  assert (∀ cs, play g cs = g) as K.
  { induction cs as [|c cs IH]; [reflexivity|].
    simpl. rewrite (proj2 (game_over_call g c Hn)). exact IH. }
  intros cs c. rewrite K. split; [reflexivity|]. split; [exact Hw|].
  exact (proj1 (game_over_call g c Hn)).
Qed.

Lemma game_over_forever_witness :
  is_winner (play new_game game_p1_reaches_column_8) (Some 1) = true ∧
  ∀ cs c,
    play (play new_game game_p1_reaches_column_8) cs
      = play new_game game_p1_reaches_column_8 ∧
    _winner (play (play new_game game_p1_reaches_column_8) cs) = Some 1 ∧
    answer (play (play new_game game_p1_reaches_column_8) cs) c = Ret (Some false).
Proof.
  split; [vm_compute; reflexivity|].
  apply (game_over_forever (play new_game game_p1_reaches_column_8) 1).
  vm_compute. reflexivity.
Defined.

(** C1.  The guard tests the row against 8 twice and never tests the
    column against 8.  On a new game a move to column 9 is not refused but
    raises [IndexError], and a fence at column 9 is accepted: it is stored,
    charged to the player and passes the turn. *)
Theorem column_9_not_refused :
  answer new_game (MovePawn (Some 1) (9, 0)) = Raise IndexError ∧
  answer new_game (PlaceFence (Some 1) "h" (9, 1)) = Ret (Some true) ∧
  bget (_board new_game) 1 9 1 = Some VNone ∧
  bget (_board (step new_game (PlaceFence (Some 1) "h" (9, 1)))) 1 9 1
    = Some (VFence (mkFence "h")) ∧
  _p1_fence_count (step new_game (PlaceFence (Some 1) "h" (9, 1))) = 9 ∧
  _current_player (step new_game (PlaceFence (Some 1) "h" (9, 1))) = 2.
Proof. vm_compute. repeat split; reflexivity. Qed.

(** C2.  Player 2 reaches column 0 by a successful move; the winner field
    is then 0, not 2, so [is_winner] answers false for player 2 (and true
    for the number 0). *)
Theorem p2_win_records_0 :
  answer (play new_game game_p2_reaches_column_0) (MovePawn (Some 2) (0, 8))
    = Ret (Some true) ∧
  _winner (step (play new_game game_p2_reaches_column_0) (MovePawn (Some 2) (0, 8)))
    = Some 0 ∧
  is_winner (step (play new_game game_p2_reaches_column_0) (MovePawn (Some 2) (0, 8)))
    (Some 2) = false ∧
  is_winner (step (play new_game game_p2_reaches_column_0) (MovePawn (Some 2) (0, 8)))
    (Some 0) = true.
Proof. vm_compute. repeat split; reflexivity. Qed.

(** C4.  The new game: construction returns, both reserves are 10, it is
    player 1's turn, nobody has won, the pawns stand on (4,0) and (4,8);
    row 0 holds a horizontal fence in every column 0..9, columns 0 and 9
    hold a vertical fence in every row 0..8; but row 9, the far edge, holds
    no fence at all: its ten [place_fence] calls are refused by the guard. *)
Theorem new_game_state :
  (init fresh_fields).1 = Ret tt ∧
  _p1_fence_count new_game = 10 ∧ _p2_fence_count new_game = 10 ∧
  _current_player new_game = 1 ∧ _winner new_game = None ∧
  pawn_at new_game 1 (4, 0) = true ∧ pawn_at new_game 2 (4, 8) = true ∧
  Forall (λ col, occupied (bget (_board new_game) 0 col 1) = true) (range 10) ∧
  Forall (λ row, occupied (bget (_board new_game) row 0 2) = true) (range 9) ∧
  Forall (λ row, occupied (bget (_board new_game) row 9 2) = true) (range 9) ∧
  Forall (λ col, bget (_board new_game) 9 col 1 = Some VNone) (range 10) ∧
  Forall (λ col, answer fresh_fields (PlaceFence None "h" (col, 9)) = Ret (Some false))
         (range 10).
Proof.
  vm_compute. repeat split; try reflexivity; repeat (constructor; [reflexivity|]);
    constructor.
Qed.

(** C5, as stated, fails: a setup call (player [None]) on a new game stores
    a fence and returns [None], not true. *)
Lemma setup_fence_returns_None :
  bget (_board new_game) 4 4 1 = Some VNone ∧
  bget (_board (step new_game (PlaceFence None "h" (4, 4)))) 4 4 1
    = Some (VFence (mkFence "h")) ∧
  answer new_game (PlaceFence None "h" (4, 4)) = Ret None ∧
  answer new_game (PlaceFence None "h" (4, 4)) ≠ Ret (Some true).
Proof. vm_compute. repeat split; try reflexivity. discriminate. Qed.

(** C5, amended.  A call of [place_fence] that changes the board, that is,
    stores a fence, returns true when a player is given and [None] when
    the player is [None]. *)
Theorem stored_fence_answer g player orient xy :
  _board (step g (PlaceFence player orient xy)) ≠ _board g →
  answer g (PlaceFence player orient xy)
  = Ret (match player with Some _ => Some true | None => None end).
Proof.
  intros H. unfold answer, step, run_call in *.
  destruct (place_fence_spec player orient xy g)
    as [E | [E | (k & b' & _ & _ & _ & _ & E)]]; rewrite E in *; simpl in *;
    done.
Qed.

Lemma stored_fence_answer_witness :
  _board (step new_game (PlaceFence (Some 1) "v" (3, 3))) ≠ _board new_game ∧
  answer new_game (PlaceFence (Some 1) "v" (3, 3)) = Ret (Some true).
Proof.
  assert (_board (step new_game (PlaceFence (Some 1) "v" (3, 3))) ≠ _board new_game)
    as H by (vm_compute; discriminate).
  split; [exact H|].
  exact (stored_fence_answer new_game (Some 1) "v" (3, 3) H).
Defined.

(** What a call does to reserves and turn, on a reachable state. *)
Lemma call_counts_turn g c :
  Inv g →
  (succeeded g c = false ∧
   _current_player (step g c) = _current_player g ∧
   _p1_fence_count (step g c) = _p1_fence_count g ∧
   _p2_fence_count (step g c) = _p2_fence_count g)
  ∨ (succeeded g c = true ∧ (∃ xy, c = MovePawn (Some (_current_player g)) xy) ∧
     _current_player (step g c) = 3 - _current_player g ∧
     _p1_fence_count (step g c) = _p1_fence_count g ∧
     _p2_fence_count (step g c) = _p2_fence_count g)
  ∨ (succeeded g c = true ∧
     (∃ orient xy, c = PlaceFence (Some (_current_player g)) orient xy) ∧
     _current_player (step g c) = 3 - _current_player g ∧
     0 < fence_count g (_current_player g) ∧
     fence_count (step g c) (_current_player g)
       = fence_count g (_current_player g) - 1 ∧
     fence_count (step g c) (3 - _current_player g)
       = fence_count g (3 - _current_player g)).
Proof.
  intros HI.
  destruct (call_ending g c HI)
    as [A S | A S | xy prev b1 b2 -> _ _ _ _ _ _ A S
        | player orient xy k b' -> _ G _ _ A S]; unfold succeeded; rewrite A, S.
  - left. done.
  - left. done.
  - right; left. simpl. repeat split; eauto.
  - destruct (fence_answer_player _ _ _ G (inv_turn _ HI))
      as [(-> & -> & R) | [(-> & E & -> & N & R) | (-> & E & -> & N & R)]];
      rewrite R; simpl.
    + left. done.
    + right; right. rewrite E. unfold fence_count. simpl.
      pose proof (inv_p1 _ HI). repeat split; eauto; lia.
    + right; right. rewrite E. unfold fence_count. simpl.
      pose proof (inv_p2 _ HI). repeat split; eauto; lia.
Qed.

(** C7.  In every reachable state and for each player: the reserve was 10
    in the new game and is never negative; a call changes it only when it
    is a fence placement by that player that returns true, and then by
    exactly minus one (so it never increases); and with an empty reserve
    every placement by that player returns false. *)
Theorem fence_reserve g c (p : Z) :
  reachable g → p = 1 ∨ p = 2 →
  fence_count new_game p = 10 ∧
  0 ≤ fence_count g p ∧
  fence_count (step g c) p
    = (if fence_by p c && succeeded g c then fence_count g p - 1 else fence_count g p) ∧
  fence_count (step g c) p ≤ fence_count g p ∧
  (fence_count g p = 0 →
   ∀ orient xy, answer g (PlaceFence (Some p) orient xy) = Ret (Some false)).
Proof.
  intros Hr Hp. pose proof (reachable_Inv g Hr) as HI.
  assert (fence_count (step g c) p
    = (if fence_by p c && succeeded g c then fence_count g p - 1 else fence_count g p))
    as Hstep.
  { pose proof (inv_turn _ HI) as Ht.
    destruct (call_counts_turn g c HI)
      as [(-> & _ & E1 & E2) | [(-> & [xy ->] & _ & E1 & E2)
          | (-> & (orient & xy & ->) & _ & _ & E1 & E2)]].
    - rewrite andb_false_r. unfold fence_count. rewrite E1, E2. reflexivity.
    - simpl. unfold fence_count. rewrite E1, E2. reflexivity.
    - simpl. rewrite andb_true_r.
      destruct (Z.eqb_spec (_current_player g) p) as [<-|N]; [exact E1|].
      replace p with (3 - _current_player g) by lia. exact E2. }
  split; [destruct Hp as [-> | ->]; reflexivity|].
  split; [unfold fence_count; destruct Hp as [-> | ->]; simpl;
          [exact (inv_p1 _ HI)|exact (inv_p2 _ HI)]|].
  split; [exact Hstep|].
  split; [rewrite Hstep; destruct (fence_by p c && succeeded g c); lia|].
  intros H0 orient xy. unfold answer, run_call.
  rewrite place_fence_guarded; [reflexivity|].
  unfold fence_guard, fence_count in *.
  destruct Hp as [-> | ->]; simpl in *; rewrite H0; simpl;
    rewrite ?orb_true_r; reflexivity.
Qed.

Lemma fence_reserve_witness :
  reachable new_game ∧ (1 = 1 ∨ 1 = 2) ∧
  fence_count (step new_game (PlaceFence (Some 1) "h" (4, 4))) 1 = 9.
Proof.
  split; [constructor|]. split; [by left|].
  exact (proj1 (proj2 (proj2
    (fence_reserve new_game (PlaceFence (Some 1) "h" (4, 4)) 1
       reachable_new (or_introl eq_refl))))).
Defined.

Lemma out_of_turn_refused g c (p : Z) :
  actor c = Some p → p ≠ _current_player g →
  answer g c = Ret (Some false) ∧ step g c = g.
Proof.
  intros Ha Hp.
  assert (eq_opt (Some p) (Some (_current_player g)) = false) as E
    by (simpl; lia).
  destruct c as [player xy | player orient xy]; simpl in Ha; subst player;
    unfold answer, step, run_call.
  - unfold bind. rewrite move_pawn_guarded; [done|].
    rewrite E. simpl. rewrite orb_true_r. reflexivity.
  - rewrite place_fence_guarded; [done|].
    unfold fence_guard. rewrite E. simpl. rewrite !orb_true_r. reflexivity.
Qed.

Lemma refused_unchanged g c :
  Inv g → answer g c = Ret (Some false) → step g c = g.
Proof.
  intros HI H.
  destruct (call_ending g c HI)
    as [A S | A S | xy prev b1 b2 _ _ _ _ _ _ _ A S
        | player orient xy k b' _ _ _ _ _ A S]; try done.
  - rewrite A in H. discriminate.
  - rewrite A in H. destruct player; discriminate.
Qed.

Lemma succeeded_turn g c :
  Inv g → succeeded g c = true →
  actor c = Some (_current_player g) ∧
  _current_player (step g c) = 3 - _current_player g.
Proof.
  intros HI H.
  destruct (call_counts_turn g c HI)
    as [(E & _) | [(_ & [xy ->] & E & _) | (_ & (orient & xy & ->) & E & _)]].
  - rewrite E in H. discriminate.
  - done.
  - done.
Qed.

Lemma not_succeeded_turn g c :
  Inv g → succeeded g c = false → _current_player (step g c) = _current_player g.
Proof.
  intros HI H.
  destruct (call_counts_turn g c HI) as [(_ & E & _) | [(E & _) | (E & _)]];
    [done|rewrite E in H; discriminate..].
Qed.

Lemma actors_alternate g cs :
  Inv g → alternating (_current_player g) (actors g cs).
Proof.
  revert g. induction cs as [|c cs IH]; intros g HI; [exact I|].
  simpl. pose proof (IH (step g c) (Inv_step g c HI)) as IH'.
  destruct (succeeded g c) eqn:S.
  - destruct (succeeded_turn g c HI S) as [Ha Ht]. simpl.
    split; [exact Ha|]. rewrite <- Ht. exact IH'.
  - simpl. rewrite <- (not_succeeded_turn g c HI S). exact IH'.
Qed.

(** C8.  A new game starts with player 1.  In every reachable state the
    current player is 1 or 2; a call that returns true was made by the
    current player and hands the turn to the other one; a call by a player
    number that is not the current player returns false; a call that
    returns false changes nothing, and a call that does not return true
    leaves the turn as it is.  So along any sequence of calls the ones
    that return true are made by the current player, the other player,
    the current player, and so on. *)
Theorem turn_alternation g c :
  reachable g →
  _current_player new_game = 1 ∧
  (_current_player g = 1 ∨ _current_player g = 2) ∧
  (succeeded g c = true →
   actor c = Some (_current_player g) ∧
   _current_player (step g c) = 3 - _current_player g) ∧
  (∀ p : Z, actor c = Some p → p ≠ _current_player g →
   answer g c = Ret (Some false)) ∧
  (answer g c = Ret (Some false) → step g c = g) ∧
  (succeeded g c = false → _current_player (step g c) = _current_player g) ∧
  (∀ cs, alternating (_current_player g) (actors g cs)).
Proof.
  intros Hr. pose proof (reachable_Inv g Hr) as HI.
  split; [reflexivity|]. split; [exact (inv_turn _ HI)|].
  split; [exact (succeeded_turn g c HI)|].
  split; [intros p Ha Hp; exact (proj1 (out_of_turn_refused g c p Ha Hp))|].
  split; [exact (refused_unchanged g c HI)|].
  split; [exact (not_succeeded_turn g c HI)|].
  intros cs. exact (actors_alternate g cs HI).
Qed.

Lemma turn_alternation_witness :
  reachable new_game ∧
  _current_player (step new_game (MovePawn (Some 1) (4, 1))) = 2 ∧
  alternating 1 (actors new_game game_p2_steps_on_p1).
Proof.
  split; [constructor|].
  pose proof (turn_alternation new_game (MovePawn (Some 1) (4, 1)) reachable_new)
    as (_ & _ & H & _ & _ & _ & A).
  split; [exact (proj2 (H eq_refl))|exact (A game_p2_steps_on_p1)].
Defined.

(** ** The move rule *)

Lemma move_pawn_answer g xy :
  Inv g → on_board xy = true → _winner g = None →
  answer g (MovePawn (Some (_current_player g)) xy)
  = Ret (Some (steps_from g (_current_player g) xy (xy.1, xy.2 - 1)
               || steps_from g (_current_player g) xy (xy.1, xy.2 + 1)
               || steps_from g (_current_player g) xy (xy.1 - 1, xy.2)
               || steps_from g (_current_player g) xy (xy.1 + 1, xy.2))).
Proof.
  intros HI Hc Hw. unfold answer, run_call, bind.
  rewrite (move_pawn_on_board g xy HI Hc Hw). cbv zeta.
  set (p := _current_player g).
  assert (∀ prev, steps_from g p xy prev = true →
    ∃ g', move_pawn_success (Some p) prev xy g = (Ret true, g')) as K.
  { intros prev Hs. unfold steps_from in Hs.
    apply andb_true_iff in Hs as [Hs _]. apply andb_true_iff in Hs as [_ Hp].
    apply pawn_at_spec in Hp.
    destruct (move_from g p prev xy HI (inv_turn _ HI) Hc Hp) as (b1 & b2 & _ & _ & E).
    eauto. }
  destruct (steps_from g p xy (xy.1, xy.2 - 1)) eqn:S1.
  { destruct (K _ S1) as [g' ->]. reflexivity. }
  destruct (steps_from g p xy (xy.1, xy.2 + 1)) eqn:S2.
  { destruct (K _ S2) as [g' ->]. reflexivity. }
  destruct (steps_from g p xy (xy.1 - 1, xy.2)) eqn:S3.
  { destruct (K _ S3) as [g' ->]. reflexivity. }
  destruct (steps_from g p xy (xy.1 + 1, xy.2)) eqn:S4.
  { destruct (K _ S4) as [g' ->]. reflexivity. }
  reflexivity.
Qed.

Lemma neighbours_exhaust g p xy :
  (∃ src, on_board src = true ∧ adjacent src xy = true ∧
          pawn_at g p src = true ∧ edge_open g src xy = true)
  ↔ steps_from g p xy (xy.1, xy.2 - 1) || steps_from g p xy (xy.1, xy.2 + 1)
    || steps_from g p xy (xy.1 - 1, xy.2) || steps_from g p xy (xy.1 + 1, xy.2) = true.
Proof.
  split.
  - intros ([sc sr] & Hb & Ha & Hp & He).
    assert (steps_from g p xy (sc, sr) = true) as Hs
      by (unfold steps_from; rewrite Hb, Hp, He; reflexivity).
    apply adjacent_spec in Ha. simpl in Ha.
    rewrite !orb_true_iff.
    destruct Ha as [[-> [-> | ->]] | [-> [-> | ->]]]; auto.
  - rewrite !orb_true_iff.
    assert (∀ src, adjacent src xy = true → steps_from g p xy src = true →
      ∃ src, on_board src = true ∧ adjacent src xy = true ∧
             pawn_at g p src = true ∧ edge_open g src xy = true) as K.
    { intros src Ha Hs. unfold steps_from in Hs.
      apply andb_true_iff in Hs as [Hs He]. apply andb_true_iff in Hs as [Hb Hp].
      exists src. done. }
    intros [[[H | H] | H] | H]; (eapply K; [|exact H]);
      apply adjacent_spec; simpl; lia.
Qed.

(** C9.  In a reachable state without a winner, a move of the current
    player to a coordinate of the playing area returns true exactly when
    that player's pawn stands on an orthogonal neighbour of the target and
    the edge between the two carries no fence; otherwise it returns false
    (it never raises).  In particular, when the pawn stands on a cell that
    is not an orthogonal neighbour of the target (further away, or
    diagonal), or the edge to the target is fenced, the move returns
    false. *)
Theorem move_pawn_rule g (p : Z) (xy : coord) :
  reachable g → on_board xy = true → _winner g = None → p = _current_player g →
  (answer g (MovePawn (Some p) xy) = Ret (Some true) ↔
   ∃ src, on_board src = true ∧ adjacent src xy = true ∧
          pawn_at g p src = true ∧ edge_open g src xy = true) ∧
  (answer g (MovePawn (Some p) xy) = Ret (Some true) ∨
   answer g (MovePawn (Some p) xy) = Ret (Some false)) ∧
  (∀ src, on_board src = true → pawn_at g p src = true →
     adjacent src xy = false ∨ edge_open g src xy = false →
     answer g (MovePawn (Some p) xy) = Ret (Some false)).
Proof.
  intros Hr Hc Hw ->. pose proof (reachable_Inv g Hr) as HI.
  set (p := _current_player g).
  pose proof (move_pawn_answer g xy HI Hc Hw) as A. fold p in A.
  pose proof (neighbours_exhaust g p xy) as N.
  assert (answer g (MovePawn (Some p) xy) = Ret (Some true) ↔
    ∃ src, on_board src = true ∧ adjacent src xy = true ∧
           pawn_at g p src = true ∧ edge_open g src xy = true) as Hiff.
  { rewrite N, A. split; [intros [= ->]; reflexivity|intros ->; reflexivity]. }
  assert (answer g (MovePawn (Some p) xy) = Ret (Some true) ∨
          answer g (MovePawn (Some p) xy) = Ret (Some false)) as Htot.
  { rewrite A. destruct (_ || _ || _ || _); auto. }
  split; [exact Hiff|]. split; [exact Htot|].
  intros src Hb Hp Hbad. destruct Htot as [T | F]; [exfalso|exact F].
  apply Hiff in T as (src' & Hb' & Ha' & Hp' & He').
  apply on_board_spec in Hb, Hb'. apply pawn_at_spec in Hp, Hp'.
  destruct (inv_uniq _ HI p src.2 src.1 src'.2 src'.1) as [E2 E1]; try done; try lia.
  assert (src = src') as -> by (destruct src, src'; simpl in *; congruence).
  rewrite Ha', He' in Hbad. destruct Hbad; discriminate.
Qed.

Lemma move_pawn_rule_witness :
  reachable new_game ∧ on_board (4, 1) = true ∧ _winner new_game = None ∧
  1 = _current_player new_game ∧
  answer new_game (MovePawn (Some 1) (4, 1)) = Ret (Some true) ∧
  answer new_game (MovePawn (Some 1) (5, 1)) = Ret (Some false).
Proof.
  split; [constructor|]. split; [reflexivity|]. split; [reflexivity|].
  split; [reflexivity|]. split.
  - apply (move_pawn_rule new_game 1 (4, 1) reachable_new eq_refl eq_refl eq_refl).
    exists (4, 0). vm_compute. done.
  - apply (proj2 (proj2
      (move_pawn_rule new_game 1 (5, 1) reachable_new eq_refl eq_refl eq_refl))
      (4, 0)); [reflexivity..|].
    left. reflexivity.
Defined.

Lemma in_range n z : In z (range n) ↔ 0 ≤ z < Z.of_nat n.
Proof.
  unfold range. rewrite <- list_elem_of_In, list_elem_of_fmap. split.
  - intros (k & -> & Hk). apply elem_of_seq in Hk. lia.
  - intros Hz. exists (Z.to_nat z). split; [lia|]. apply elem_of_seq. lia.
Qed.

Lemma in_all_cells xy : In xy all_cells ↔ 0 ≤ xy.1 < 10 ∧ 0 ≤ xy.2 < 10.
Proof.
  unfold all_cells. rewrite in_flat_map. split.
  - intros (row & Hrow & Hin). apply in_map_iff in Hin as (col & <- & Hcol).
    apply in_range in Hrow, Hcol. simpl. lia.
  - intros [H1 H2]. exists xy.2. split; [apply in_range; lia|].
    apply in_map_iff. exists xy.1. split; [by destruct xy|apply in_range; lia].
Qed.

Lemma NoDup_all_cells : List.NoDup all_cells.
Proof. apply NoDup_ListNoDup. refine (bool_decide_unpack _ _). vm_compute. exact I. Qed.

Lemma filter_none {A} (f : A → bool) (l : list A) :
  (∀ y, In y l → f y = false) → List.filter f l = [].
Proof.
  induction l as [|a l IH]; intros H; [reflexivity|]. simpl.
  rewrite (H a) by (by left). apply IH. intros y Hy. apply H. by right.
Qed.

Lemma filter_single {A} (f : A → bool) (l : list A) (x : A) :
  List.NoDup l → In x l → f x = true → (∀ y, In y l → f y = true → y = x) →
  List.filter f l = [x].
Proof.
  induction l as [|a l IH]; intros Hnd Hin Hx Huniq; [destruct Hin|].
  apply NoDup_cons_iff in Hnd as [Ha Hnd]. simpl.
  destruct (f a) eqn:Fa.
  - assert (a = x) as -> by (apply Huniq; [by left|done]).
    f_equal. apply filter_none. intros y Hy.
    destruct (f y) eqn:Fy; [|reflexivity].
    exfalso. apply Ha. rewrite <- (Huniq y); [done|by right|done].
  - destruct Hin as [-> | Hin]; [congruence|].
    apply IH; try done. intros y Hy. apply Huniq. by right.
Qed.

Lemma pawn_cells_single g p xy :
  Inv g → In xy all_cells → pawn_at g p xy = true → pawn_cells g p = [xy].
Proof.
  intros HI Hin Hp. apply (filter_single _ _ _ NoDup_all_cells Hin Hp).
  intros y Hy Py. apply in_all_cells in Hin, Hy. apply pawn_at_spec in Hp, Py.
  destruct (inv_uniq _ HI p y.2 y.1 xy.2 xy.1) as [E2 E1]; try done; try lia.
  destruct y, xy; simpl in *; congruence.
Qed.

Lemma pawn_cells_cases g p :
  Inv g →
  pawn_cells g p = [] ∨
  ∃ xy, pawn_cells g p = [xy] ∧ on_board xy = true ∧ pawn_at g p xy = true.
Proof.
  intros HI. destruct (pawn_cells g p) as [|xy l] eqn:E; [by left|right].
  assert (In xy (pawn_cells g p)) as Hin by (rewrite E; by left).
  apply filter_In in Hin as [Hin Hp].
  exists xy. rewrite <- E. split; [by apply pawn_cells_single|]. split; [|done].
  apply in_all_cells in Hin. pose proof Hp as Hp'. apply pawn_at_spec in Hp'.
  destruct (inv_pawn _ HI xy.2 xy.1 p) as (_ & ? & ?); try done; try lia.
  apply on_board_spec. lia.
Qed.

Lemma pawn_cells_unchanged g g' p :
  (∀ i j, 0 ≤ i < 10 → 0 ≤ j < 10 → bget (_board g') i j 0 = bget (_board g) i j 0) →
  pawn_cells g' p = pawn_cells g p.
Proof.
  intros H. apply filter_ext_in. intros xy Hin. apply in_all_cells in Hin.
  unfold pawn_at. rewrite H by lia. reflexivity.
Qed.

Lemma fence_result_board self player b' : _board (fence_result self player b') = b'.
Proof.
  unfold fence_result. destruct (player_is player 1); [reflexivity|].
  destruct (player_is player 2); reflexivity.
Qed.

(** What a call does to the cells a player's pawn occupies. *)
Lemma pawn_cells_step g c (q : Z) :
  Inv g → q = 1 ∨ q = 2 →
  pawn_cells (step g c) q = pawn_cells g q
  ∨ (∃ xy, c = MovePawn (Some q) xy ∧ succeeded g c = true ∧
           pawn_cells (step g c) q = [xy])
  ∨ (∃ xy, c = MovePawn (Some (3 - q)) xy ∧ succeeded g c = true ∧
           pawn_cells g q = [xy] ∧ pawn_cells (step g c) q = []).
Proof.
  intros HI Hq. pose proof (Inv_step g c HI) as HI'.
  destruct (call_ending g c HI)
    as [A S | A S | xy prev b1 b2 Ec Hw Hc Ha Hs H1 H2 A S
        | player orient xy k b' Ec Hk G R W A S].
  - left. by rewrite S.
  - left. by rewrite S.
  - assert (succeeded g c = true) as Hsucc by (unfold succeeded; by rewrite A).
    set (p := _current_player g) in *.
    pose proof Hs as Hs'. unfold steps_from in Hs'.
    apply andb_true_iff in Hs' as [Hs' _]. apply andb_true_iff in Hs' as [Hprev Hp].
    destruct (moved_board _ _ _ _ _ _ (inv_shape _ HI) Hc Hprev H1 H2) as [_ Hget].
    pose proof (proj1 (on_board_spec _) Hc) as Rc.
    pose proof (proj1 (on_board_spec _) Hprev) as Rp.
    pose proof (proj1 (adjacent_spec _ _) Ha) as Ra.
    pose proof (proj1 (pawn_at_spec _ _ _) Hp) as Hp'.
    assert (∀ y, In y all_cells →
      pawn_at (step g c) q y =
      if decide (y.2 = prev.2 ∧ y.1 = prev.1) then false
      else if decide (y.2 = xy.2 ∧ y.1 = xy.1) then p =? q
      else pawn_at g q y) as Hnew.
    { intros y Hy. apply in_all_cells in Hy. unfold pawn_at at 1.
      rewrite S. simpl. rewrite Hget by lia.
      repeat case_decide; try reflexivity; exfalso; tauto. }
    assert (In xy all_cells) as Hin by (apply in_all_cells; lia).
    destruct (Z.eqb_spec p q) as [E | N].
    + right; left. exists xy. subst q. split; [done|]. split; [done|].
      apply (pawn_cells_single _ _ _ HI' Hin).
      rewrite (Hnew xy Hin). rewrite decide_False by lia.
      rewrite decide_True by done. reflexivity.
    + assert (p = 3 - q) as Ep by (pose proof (inv_turn _ HI); lia).
      destruct (pawn_at g q xy) eqn:Hqxy.
      * right; right. exists xy. rewrite <- Ep. split; [done|]. split; [done|].
        split; [by apply pawn_cells_single|].
        apply filter_none. intros y Hy. rewrite (Hnew y Hy).
        case_decide; [reflexivity|]. case_decide; [reflexivity|].
        destruct (pawn_at g q y) eqn:Hqy; [|reflexivity].
        exfalso. apply in_all_cells in Hy. apply pawn_at_spec in Hqxy, Hqy.
        destruct (inv_uniq _ HI q y.2 y.1 xy.2 xy.1); try done; try lia.
      * left. apply filter_ext_in. intros y Hy. rewrite (Hnew y Hy).
        case_decide as D1.
        { unfold pawn_at. destruct D1 as [-> ->]. rewrite Hp'.
          symmetry. by apply Z.eqb_neq. }
        case_decide as D2; [|reflexivity].
        replace y with xy by (destruct y, xy; simpl in *; f_equal; lia).
        by rewrite Hqxy.
  - left. apply pawn_cells_unchanged. intros i j Hi Hj.
    rewrite S, fence_result_board.
    rewrite (bget_bset _ _ _ _ _ _ _ _ _ (inv_shape _ HI) W) by lia.
    rewrite decide_False; [reflexivity|].
    intros (_ & _ & E). destruct Hk as [[-> _] | [-> _]]; discriminate.
Qed.

(** C3, as stated, fails: after the two pawns have walked towards each
    other along column 4, player 2's move onto the cell player 1 stands on
    is accepted, and player 1 has no pawn left on the board. *)
Lemma pawn_lost_on_capture :
  reachable (play new_game game_p2_steps_on_p1) ∧
  answer (play new_game (removelast game_p2_steps_on_p1)) (MovePawn (Some 2) (4, 4))
    = Ret (Some true) ∧
  pawn_cells (play new_game (removelast game_p2_steps_on_p1)) 1 = [(4, 4)] ∧
  pawn_cells (play new_game game_p2_steps_on_p1) 1 = [] ∧
  pawn_cells (play new_game game_p2_steps_on_p1) 2 = [(4, 4)] ∧
  length (pawn_cells (play new_game game_p2_steps_on_p1) 1) ≠ 1%nat.
Proof.
  split; [apply reachable_play; constructor|].
  vm_compute. repeat split; try reflexivity. discriminate.
Qed.

(** C3, amended.  In every reachable state each player's pawn occupies at
    most one cell, a cell of the playing area, and at least one pawn is on
    the board; no call duplicates a pawn.  A call changes the cells of a
    player's pawn in two ways only: the player's own move that returns
    true puts the pawn on the target, and the other player's move that
    returns true onto the cell where the pawn stands removes it from the
    board. *)
Theorem pawns_at_most_one g c (q : Z) :
  reachable g → q = 1 ∨ q = 2 →
  (length (pawn_cells g q) ≤ 1)%nat ∧
  (1 ≤ length (pawn_cells g 1) + length (pawn_cells g 2))%nat ∧
  Forall (λ xy, on_board xy = true) (pawn_cells g q) ∧
  (pawn_cells (step g c) q = pawn_cells g q
   ∨ (∃ xy, c = MovePawn (Some q) xy ∧ succeeded g c = true ∧
            pawn_cells (step g c) q = [xy])
   ∨ (∃ xy, c = MovePawn (Some (3 - q)) xy ∧ succeeded g c = true ∧
            pawn_cells g q = [xy] ∧ pawn_cells (step g c) q = [])).
Proof.
  intros Hr Hq. pose proof (reachable_Inv g Hr) as HI.
  split; [|split; [|split]].
  - destruct (pawn_cells_cases g q HI) as [-> | (xy & -> & _)]; simpl; lia.
  - destruct (inv_some _ HI) as (i & j & p & Hi & Hj & E).
    destruct (inv_pawn _ HI i j p Hi Hj E) as (Hp & _ & _).
    assert (pawn_cells g p = [(j, i)]) as L.
    { apply pawn_cells_single; [done|apply in_all_cells; simpl; lia|].
      by apply pawn_at_spec. }
    destruct Hp as [-> | ->]; rewrite L; simpl; lia.
  - destruct (pawn_cells_cases g q HI) as [-> | (xy & -> & Hb & _)];
      repeat constructor. exact Hb.
  - by apply pawn_cells_step.
Qed.

Lemma pawns_at_most_one_witness :
  reachable new_game ∧ (1 = 1 ∨ 1 = 2) ∧
  (length (pawn_cells new_game 1) ≤ 1)%nat ∧
  (1 ≤ length (pawn_cells new_game 1) + length (pawn_cells new_game 2))%nat.
Proof.
  split; [constructor|]. split; [by left|].
  pose proof (pawns_at_most_one new_game (MovePawn (Some 1) (4, 1)) 1
                reachable_new (or_introl eq_refl)) as (H1 & H2 & _).
  split; [exact H1|exact H2].
Defined.

(** ** Columns beyond the board, and the winner field *)

Lemma probe_unreadable b i j player i' j' k :
  bget b i j 0 = None → probe b i j player i' j' k = None.
Proof. intros H. unfold probe. rewrite H. reflexivity. Qed.

Lemma probe_column_9 g i p i' j' k :
  Inv g → valid 10 i = true → probe (_board g) i 9 (Some p) i' j' k = Some false.
Proof.
  intros HI Hi. unfold probe.
  destruct (bget_valid (_board g) i 9 0 (inv_shape _ HI) Hi eq_refl eq_refl) as [v Hv].
  rewrite Hv. simpl. destruct (eq_player v (Some p)) eqn:E; [|reflexivity].
  apply eq_player_spec in E as ->.
  destruct (pawn_read _ _ _ _ HI Hv) as (_ & _ & H9 & _). norm_lia.
Qed.

(** In a reachable state a move of the current player to a row of the
    board and a column beyond 8 is never refused: it raises. *)
Lemma move_beyond_column_8_raises g xy :
  reachable g → _winner g = None → 0 ≤ xy.2 ≤ 8 → 9 ≤ xy.1 →
  answer g (MovePawn (Some (_current_player g)) xy) = Raise IndexError ∧
  step g (MovePawn (Some (_current_player g)) xy) = g.
Proof.
  intros Hr Hw Hrow Hcol. pose proof (reachable_Inv g Hr) as HI.
  pose proof (inv_shape _ HI) as Hb.
  unfold answer, step, run_call, bind.
  rewrite move_pawn_unguarded.
  2:{ rewrite Hw. simpl. rewrite Z.eqb_refl. simpl. unfold out_of_bounds.
      repeat (apply orb_false_intro); lia. }
  destruct (Z.eq_dec xy.1 9) as [E9 | N9].
  - rewrite E9.
    rewrite !probe_column_9 by (done || norm_lia).
    assert (probe (_board g) xy.2 (9 - 1) (Some (_current_player g)) xy.2 9 2
            = Some false) as ->.
    { unfold probe.
      destruct (bget (_board g) xy.2 (9 - 1) 0) as [v|] eqn:R; simpl; [|].
      - destruct (eq_player v (Some (_current_player g))); [|reflexivity].
        destruct (bget_valid (_board g) xy.2 9 2 Hb) as [w Hw2]; [norm_lia..|].
        rewrite Hw2. simpl. destruct w; try reflexivity.
        by destruct (inv_right _ HI xy.2 Hrow).
      - exfalso.
        destruct (bget_valid (_board g) xy.2 (9 - 1) 0 Hb) as [w Hw2]; [norm_lia..|].
        congruence. }
    rewrite probe_unreadable by (apply bget_invalid_col; [done|lia]). done.
  - rewrite probe_unreadable by (apply bget_invalid_col; [done|lia]). done.
Qed.

(** The winner field after a move that returns true: 1 when player 1
    lands on column 8, 0 when player 2 lands on column 0. *)
Lemma winner_after_move g player xy :
  reachable g → answer g (MovePawn player xy) = Ret (Some true) →
  player = Some (_current_player g) ∧
  _winner (step g (MovePawn player xy)) =
  if (_current_player g =? 1) && (xy.1 =? 8) then Some 1
  else if (_current_player g =? 2) && (xy.1 =? 0) then Some 0
  else None.
Proof.
  intros Hr H. pose proof (reachable_Inv g Hr) as HI.
  destruct (call_ending g (MovePawn player xy) HI)
    as [A S | A S | xy' prev b1 b2 Ec Hw _ _ _ _ _ A S
        | pl orient xy' k b' Ec _ _ _ _ A S]; try congruence.
  injection Ec as -> <-. split; [reflexivity|].
  rewrite S. unfold move_result. simpl. rewrite Hw. reflexivity.
Qed.

(** ** Slots, edges and the winner in reachable states *)

Ltac three k :=
  let H := fresh in
  assert (k = 0 ∨ k = 1 ∨ k = 2) as H by lia;
  repeat (destruct H as [H|H]); subst k.

Lemma new_board_slots i j k v :
  0 ≤ i < 10 → 0 ≤ j < 10 → 0 ≤ k < 3 → bget new_board i j k = Some v →
  (k = 0 ∧ (v = VNone ∨ v = VInt 1 ∨ v = VInt 2)) ∨
  (k = 1 ∧ (v = VNone ∨ v = VFence (mkFence "h"))) ∨
  (k = 2 ∧ (v = VNone ∨ v = VFence (mkFence "v"))).
Proof.
  intros Hi Hj Hk. ten i; ten j; three k; vm_compute; intros [= <-]; auto 6.
Qed.

Lemma Inv2_new_game : Inv2 new_game.
Proof.
  rewrite new_game_fields. constructor; simpl.
  - intros i j v Hi Hj E.
    destruct (new_board_slots i j 0 v Hi Hj ltac:(lia) E) as [[_ H] | [[? _] | [? _]]];
      [exact H|lia..].
  - intros i j v Hi Hj E.
    destruct (new_board_slots i j 1 v Hi Hj ltac:(lia) E) as [[? _] | [[_ H] | [? _]]];
      [lia|exact H|lia].
  - intros i j v Hi Hj E.
    destruct (new_board_slots i j 2 v Hi Hj ltac:(lia) E) as [[? _] | [[? _] | [_ H]]];
      [lia..|exact H].
  - intros j Hj. ten j; reflexivity.
  - intros i Hi. ten i; try lia; reflexivity.
  - intros i Hi. ten i; try lia; reflexivity.
  - intros j k Hj Hk. ten j; three k; reflexivity.
  - auto.
  - split; [discriminate|]. intros (i & Hi & E).
    destruct (new_board_pawns i 8 1 ltac:(lia) ltac:(lia) E); lia.
  - split; [discriminate|]. intros (i & Hi & E).
    destruct (new_board_pawns i 0 2 ltac:(lia) ltac:(lia) E); lia.
Qed.

Lemma fence_result_winner self player b' :
  _winner (fence_result self player b') = _winner self.
Proof.
  unfold fence_result. destruct (player_is player 1); [reflexivity|].
  destruct (player_is player 2); reflexivity.
Qed.

(** The board after a stored fence, slot by slot. *)
Lemma fenced_board g player xy k orient b' :
  Inv g → fence_guard g player xy = false →
  bset (_board g) xy.2 xy.1 k (VFence (mkFence orient)) = Some b' →
  k = 1 ∨ k = 2 →
  ∀ i j k', 0 ≤ i < 10 → 0 ≤ j < 10 → 0 ≤ k' < 3 →
    bget b' i j k' =
    if decide (xy.2 = i ∧ xy.1 = j ∧ k = k') then Some (VFence (mkFence orient))
    else bget (_board g) i j k'.
Proof.
  intros HI G W Hk i j k' Hi Hj Hk'.
  destruct (fence_guard_false _ _ _ G) as (Hr & Hc & _).
  rewrite (bget_bset _ _ _ _ _ _ _ _ _ (inv_shape _ HI) W Hi Hj Hk').
  rewrite !norm_canon by lia. reflexivity.
Qed.

Lemma Inv2_step g c : Inv g → Inv2 g → Inv2 (step g c).
Proof.
  intros HI HJ.
  destruct (call_ending g c HI)
    as [A S | A S | xy prev b1 b2 Ec Hw Hc Ha Hs H1 H2 A S
        | player orient xy k b' Ec Hk G R W A S]; rewrite S; try exact HJ.
  - set (p := _current_player g) in *.
    unfold steps_from in Hs. apply andb_true_iff in Hs as [Hs _].
    apply andb_true_iff in Hs as [Hprev Hp]. apply pawn_at_spec in Hp.
    destruct (moved_board _ _ _ _ _ _ (inv_shape _ HI) Hc Hprev H1 H2) as [_ Hget].
    pose proof (proj1 (on_board_spec _) Hc) as Rc.
    pose proof (proj1 (on_board_spec _) Hprev) as Rp.
    pose proof (proj1 (adjacent_spec _ _) Ha) as Ra.
    pose proof (inv_turn _ HI) as Ht. fold p in Ht.
    assert (∀ i j q, 0 ≤ i < 10 → 0 ≤ j < 10 →
      bget b2 i j 0 = Some (VInt q) →
      (q = p ∧ i = xy.2 ∧ j = xy.1) ∨
      (q ≠ p ∧ bget (_board g) i j 0 = Some (VInt q))) as Pw.
    { intros i j q Hi Hj. rewrite Hget by lia.
      repeat case_decide; intros E; try discriminate.
      - injection E as <-. left. lia.
      - right. split; [|done]. intros ->.
        destruct (inv_uniq _ HI p i j prev.2 prev.1); try done; try lia. }
    constructor; unfold move_result; simpl.
    + intros i j v Hi Hj. rewrite Hget by lia.
      repeat case_decide; intros E; try (injection E as <-).
      * auto.
      * destruct Ht as [-> | ->]; auto.
      * exact (inv2_slot0 _ HJ i j v Hi Hj E).
    + intros i j v Hi Hj. rewrite Hget by lia.
      rewrite !decide_False by lia. exact (inv2_slot1 _ HJ i j v Hi Hj).
    + intros i j v Hi Hj. rewrite Hget by lia.
      rewrite !decide_False by lia. exact (inv2_slot2 _ HJ i j v Hi Hj).
    + intros j Hj. rewrite Hget by lia.
      rewrite !decide_False by lia. exact (inv2_top _ HJ j Hj).
    + intros i Hi. rewrite Hget by lia.
      rewrite !decide_False by lia. exact (inv2_left _ HJ i Hi).
    + intros i Hi. rewrite Hget by lia.
      rewrite !decide_False by lia. exact (inv2_right _ HJ i Hi).
    + intros j k Hj Hk. rewrite Hget by lia.
      rewrite !decide_False by lia. exact (inv2_row9 _ HJ j k Hj Hk).
    + rewrite Hw. destruct ((p =? 1) && (xy.1 =? 8)); [auto|].
      destruct ((p =? 2) && (xy.1 =? 0)); auto.
    + rewrite Hw.
      assert (¬ ∃ i, 0 ≤ i ≤ 8 ∧ bget (_board g) i 8 0 = Some (VInt 1)) as Old.
      { intros H. apply (inv2_won1 _ HJ) in H. congruence. }
      destruct (Z.eqb_spec p 1) as [E1 | N1]; simpl.
      * destruct (Z.eqb_spec xy.1 8) as [E8 | N8]; simpl.
        -- split; [intros _|reflexivity]. exists xy.2. split; [lia|].
           rewrite Hget by lia. rewrite decide_False by lia.
           rewrite decide_True by lia. by rewrite E1.
        -- replace (p =? 2) with false by lia. simpl.
           split; [discriminate|]. intros (i & Hi & E). exfalso.
           destruct (Pw i 8 1 ltac:(lia) ltac:(lia) E) as [(_ & _ & ?) | [_ E']];
             [lia|]. apply Old. eauto.
      * split.
        -- destruct ((p =? 2) && (xy.1 =? 0)); discriminate.
        -- intros (i & Hi & E). exfalso.
           destruct (Pw i 8 1 ltac:(lia) ltac:(lia) E) as [(? & _ & _) | [_ E']];
             [lia|]. apply Old. eauto.
    + rewrite Hw.
      assert (¬ ∃ i, 0 ≤ i ≤ 8 ∧ bget (_board g) i 0 0 = Some (VInt 2)) as Old.
      { intros H. apply (inv2_won0 _ HJ) in H. congruence. }
      destruct (Z.eqb_spec p 1) as [E1 | N1]; simpl.
      * split.
        -- destruct (xy.1 =? 8); [discriminate|].
           replace (p =? 2) with false by lia. discriminate.
        -- intros (i & Hi & E). exfalso.
           destruct (Pw i 0 2 ltac:(lia) ltac:(lia) E) as [(? & _ & _) | [_ E']];
             [lia|]. apply Old. eauto.
      * assert (p = 2) as E2 by lia. rewrite E2. simpl.
        destruct (Z.eqb_spec xy.1 0) as [E0 | N0]; simpl.
        -- split; [intros _|reflexivity]. exists xy.2. split; [lia|].
           rewrite Hget by lia. rewrite decide_False by lia.
           rewrite decide_True by lia. by rewrite E2.
        -- split; [discriminate|]. intros (i & Hi & E). exfalso.
           destruct (Pw i 0 2 ltac:(lia) ltac:(lia) E) as [(_ & _ & ?) | [_ E']];
             [lia|]. apply Old. eauto.
  - assert (k = 1 ∨ k = 2) as Hk12 by (destruct Hk as [[-> _] | [-> _]]; auto).
    pose proof (fenced_board g player xy k orient b' HI G W Hk12) as Hget.
    destruct (fence_guard_false _ _ _ G) as (Hr & Hcol & _).
    assert (∀ i j, 0 ≤ i < 10 → 0 ≤ j < 10 →
      bget b' i j 0 = bget (_board g) i j 0) as P0.
    { intros i j Hi Hj. rewrite Hget by lia. rewrite decide_False by lia. reflexivity. }
    constructor; rewrite ?fence_result_board, ?fence_result_winner.
    + intros i j v Hi Hj. rewrite P0 by done. exact (inv2_slot0 _ HJ i j v Hi Hj).
    + intros i j v Hi Hj. rewrite Hget by lia. case_decide as D.
      * intros [= <-]. right. destruct Hk as [[_ ->] | [? _]]; [reflexivity|lia].
      * exact (inv2_slot1 _ HJ i j v Hi Hj).
    + intros i j v Hi Hj. rewrite Hget by lia. case_decide as D.
      * intros [= <-]. right. destruct Hk as [[? _] | [_ ->]]; [lia|reflexivity].
      * exact (inv2_slot2 _ HJ i j v Hi Hj).
    + intros j Hj. rewrite Hget by lia. case_decide as D.
      * destruct Hk as [[_ ->] | [? _]]; [reflexivity|lia].
      * exact (inv2_top _ HJ j Hj).
    + intros i Hi. rewrite Hget by lia. case_decide as D.
      * destruct Hk as [[? _] | [_ ->]]; [lia|reflexivity].
      * exact (inv2_left _ HJ i Hi).
    + intros i Hi. rewrite Hget by lia. case_decide as D.
      * destruct Hk as [[? _] | [_ ->]]; [lia|reflexivity].
      * exact (inv2_right _ HJ i Hi).
    + intros j k' Hj Hk'. rewrite Hget by lia. rewrite decide_False by lia.
      exact (inv2_row9 _ HJ j k' Hj Hk').
    + exact (inv2_winner _ HJ).
    + rewrite (inv2_won1 _ HJ). split; intros (i & Hi & E); exists i;
        (split; [done|]); [rewrite P0 by lia|rewrite <- P0 by lia]; done.
    + rewrite (inv2_won0 _ HJ). split; intros (i & Hi & E); exists i;
        (split; [done|]); [rewrite P0 by lia|rewrite <- P0 by lia]; done.
Qed.

Lemma reachable_Inv2 g : reachable g → Inv2 g.
Proof.
  induction 1 as [|g c Hr IH]; [exact Inv2_new_game|].
  apply Inv2_step; [by apply reachable_Inv|exact IH].
Qed.

(** ** Fences: where they can be put, and that they stay *)

Lemma fence_slot_kept g c i j k f :
  Inv g → 0 ≤ i < 10 → 0 ≤ j < 10 → k = 1 ∨ k = 2 →
  bget (_board g) i j k = Some (VFence f) →
  bget (_board (step g c)) i j k = Some (VFence f).
Proof.
  intros HI Hi Hj Hk E.
  destruct (call_ending g c HI)
    as [A S | A S | xy prev b1 b2 Ec Hw Hc Ha Hs H1 H2 A S
        | player orient xy k' b' Ec Hk' G R W A S]; rewrite S; try exact E.
  - unfold steps_from in Hs. apply andb_true_iff in Hs as [Hs _].
    apply andb_true_iff in Hs as [Hprev _].
    destruct (moved_board _ _ _ _ _ _ (inv_shape _ HI) Hc Hprev H1 H2) as [_ Hget].
    unfold move_result. simpl. rewrite Hget by lia.
    rewrite !decide_False by lia. exact E.
  - rewrite fence_result_board.
    assert (k' = 1 ∨ k' = 2) as Hk12 by (destruct Hk' as [[-> _] | [-> _]]; auto).
    rewrite (fenced_board g player xy k' orient b' HI G W Hk12) by lia.
    case_decide as D; [|exact E].
    destruct D as (D1 & D2 & D3). rewrite D1, D2, D3 in R. congruence.
Qed.

Lemma fence_slot_kept_play g cs i j k f :
  reachable g → 0 ≤ i < 10 → 0 ≤ j < 10 → k = 1 ∨ k = 2 →
  bget (_board g) i j k = Some (VFence f) →
  bget (_board (play g cs)) i j k = Some (VFence f).
Proof.
  intros Hr Hi Hj Hk. revert g Hr.
  induction cs as [|c cs IH]; intros g Hr E; [exact E|].
  simpl. apply IH; [by constructor|].
  apply fence_slot_kept; try done. by apply reachable_Inv.
Qed.

(** X1.  Fences are permanent: a fence slot that holds a fence in a
    reachable state holds the same fence after any further calls. *)
Theorem fences_are_permanent g cs (i j k : Z) f :
  reachable g → 0 ≤ i < 10 → 0 ≤ j < 10 → k = 1 ∨ k = 2 →
  bget (_board g) i j k = Some (VFence f) →
  bget (_board (play g cs)) i j k = Some (VFence f).
Proof. apply fence_slot_kept_play. Qed.

Lemma fences_are_permanent_witness :
  bget (_board (play new_game game_p2_steps_on_p1)) 3 9 2
  = Some (VFence (mkFence "v")).
Proof.
  apply (fences_are_permanent new_game game_p2_steps_on_p1 3 9 2 (mkFence "v")
           reachable_new); [lia|lia|by right|reflexivity].
Defined.

Lemma place_fence_on_occupied g player orient xy (k : Z) v :
  (k = 1 ∧ orient = "h"%string) ∨ (k = 2 ∧ orient = "v"%string) →
  bget (_board g) xy.2 xy.1 k = Some v → v ≠ VNone →
  place_fence player orient xy g = (Ret (Some false), g).
Proof.
  intros Hk E Hv.
  destruct (fence_guard g player xy) eqn:G; [by apply place_fence_guarded|].
  rewrite (place_fence_unguarded _ _ _ _ G).
  assert (is_none v = false) as Nv by (destruct v; done).
  destruct Hk as [[-> ->] | [-> ->]]; unfold probe_fence; simpl; rewrite E; simpl;
    rewrite Nv; reflexivity.
Qed.

(** X2.  In any state, [place_fence] on a slot of the asked orientation
    that already holds something returns false and changes nothing. *)
Theorem occupied_slot_refused g player orient xy (k : Z) v :
  (k = 1 ∧ orient = "h"%string) ∨ (k = 2 ∧ orient = "v"%string) →
  bget (_board g) xy.2 xy.1 k = Some v → v ≠ VNone →
  place_fence player orient xy g = (Ret (Some false), g).
Proof. apply place_fence_on_occupied. Qed.

Lemma occupied_slot_refused_witness :
  place_fence (Some 1) "h" (4, 0) new_game = (Ret (Some false), new_game).
Proof.
  apply (occupied_slot_refused new_game (Some 1) "h" (4, 0) 1 (VFence (mkFence "h")));
    [by left|reflexivity|discriminate].
Defined.

(** X3.  In any state and for any coordinate, [place_fence] with an
    orientation other than "h" and "v" returns false and changes nothing;
    it reads no slot, so it cannot raise. *)
Theorem other_orientation_refused g player orient xy :
  orient ≠ "h"%string → orient ≠ "v"%string →
  place_fence player orient xy g = (Ret (Some false), g).
Proof.
  intros Nh Nv.
  destruct (fence_guard g player xy) eqn:G; [by apply place_fence_guarded|].
  rewrite (place_fence_unguarded _ _ _ _ G). unfold probe_fence.
  destruct (String.eqb_spec orient "h"); [done|].
  destruct (String.eqb_spec orient "v"); [done|]. reflexivity.
Qed.

Lemma other_orientation_refused_witness :
  place_fence (Some 1) "x" (50, 3) new_game = (Ret (Some false), new_game).
Proof.
  apply (other_orientation_refused new_game (Some 1) "x" (50, 3)); discriminate.
Defined.

(** What a stored fence leaves behind. *)
Lemma stored_fence_slots g player orient xy :
  Inv g → _board (step g (PlaceFence player orient xy)) ≠ _board g →
  ∃ k : Z,
    ((k = 1 ∧ orient = "h"%string) ∨ (k = 2 ∧ orient = "v"%string)) ∧
    0 ≤ xy.2 ≤ 8 ∧ 0 ≤ xy.1 ≤ 9 ∧
    bget (_board g) xy.2 xy.1 k = Some VNone ∧
    (∀ i j k', 0 ≤ i < 10 → 0 ≤ j < 10 → 0 ≤ k' < 3 →
       bget (_board (step g (PlaceFence player orient xy))) i j k' =
       if decide (xy.2 = i ∧ xy.1 = j ∧ k = k') then Some (VFence (mkFence orient))
       else bget (_board g) i j k') ∧
    _winner (step g (PlaceFence player orient xy)) = _winner g.
Proof.
  intros HI Hch.
  destruct (call_ending g (PlaceFence player orient xy) HI)
    as [A S | A S | xy' prev b1 b2 Ec Hw Hc Ha Hs H1 H2 A S
        | pl o xy' k b' Ec Hk G R W A S].
  { rewrite S in Hch. by destruct Hch. }
  { rewrite S in Hch. by destruct Hch. }
  { discriminate. }
  injection Ec as <- <- <-.
  assert (k = 1 ∨ k = 2) as Hk12 by (destruct Hk as [[-> _] | [-> _]]; auto).
  destruct (fence_guard_false _ _ _ G) as (Hr & Hcol & _).
  destruct (bget_norm _ _ _ _ _ (inv_shape _ HI) R) as (_ & Vc & _).
  exists k. split; [exact Hk|]. split; [exact Hr|]. split; [norm_lia|].
  split; [exact R|]. rewrite S, fence_result_board, fence_result_winner.
  split; [|reflexivity].
  exact (fenced_board g player xy k orient b' HI G W Hk12).
Qed.

(** X4.  Once a call of [place_fence] has stored a fence, every later
    call of [place_fence] with the same orientation and coordinate, by any
    player and after any calls in between, returns false and changes
    nothing. *)
Theorem same_fence_twice g player orient xy cs player' :
  reachable g → _board (step g (PlaceFence player orient xy)) ≠ _board g →
  place_fence player' orient xy (play (step g (PlaceFence player orient xy)) cs)
  = (Ret (Some false), play (step g (PlaceFence player orient xy)) cs).
Proof.
  intros Hr Hch. pose proof (reachable_Inv g Hr) as HI.
  destruct (stored_fence_slots g player orient xy HI Hch)
    as (k & Hk & Rr & Rc & _ & Hget & _).
  assert (k = 1 ∨ k = 2) as Hk12 by (destruct Hk as [[-> _] | [-> _]]; auto).
  apply (place_fence_on_occupied _ _ _ _ k (VFence (mkFence orient)) Hk);
    [|discriminate].
  apply fence_slot_kept_play; [by constructor|lia|lia|done|].
  rewrite Hget by lia. rewrite decide_True by done. reflexivity.
Qed.

Lemma same_fence_twice_witness :
  place_fence (Some 1) "h" (4, 4)
    (play (step new_game (PlaceFence (Some 1) "h" (4, 4))) [MovePawn (Some 2) (4, 7)])
  = (Ret (Some false),
     play (step new_game (PlaceFence (Some 1) "h" (4, 4))) [MovePawn (Some 2) (4, 7)]).
Proof.
  apply (same_fence_twice new_game (Some 1) "h" (4, 4) [MovePawn (Some 2) (4, 7)]
           (Some 1) reachable_new).
  vm_compute. discriminate.
Defined.

(** X5.  What a stored fence changes: the slot of the asked orientation at
    the coordinate was empty and now holds a [Fence] of that orientation;
    every other slot of the board, and the winner field, are as before. *)
Theorem stored_fence_effect g player orient xy :
  reachable g → _board (step g (PlaceFence player orient xy)) ≠ _board g →
  ∃ k : Z,
    ((k = 1 ∧ orient = "h"%string) ∨ (k = 2 ∧ orient = "v"%string)) ∧
    0 ≤ xy.2 ≤ 8 ∧ 0 ≤ xy.1 ≤ 9 ∧
    bget (_board g) xy.2 xy.1 k = Some VNone ∧
    (∃ f, bget (_board (step g (PlaceFence player orient xy))) xy.2 xy.1 k
          = Some (VFence f) ∧ get_orientation f = orient) ∧
    (∀ i j k', 0 ≤ i < 10 → 0 ≤ j < 10 → 0 ≤ k' < 3 →
       ¬ (i = xy.2 ∧ j = xy.1 ∧ k' = k) →
       bget (_board (step g (PlaceFence player orient xy))) i j k'
       = bget (_board g) i j k') ∧
    _winner (step g (PlaceFence player orient xy)) = _winner g.
Proof.
  intros Hr Hch. pose proof (reachable_Inv g Hr) as HI.
  destruct (stored_fence_slots g player orient xy HI Hch)
    as (k & Hk & Rr & Rc & R & Hget & Hw).
  assert (k = 1 ∨ k = 2) as Hk12 by (destruct Hk as [[-> _] | [-> _]]; auto).
  exists k. repeat (split; [done|]). split; [|split; [|exact Hw]].
  - exists (mkFence orient). split; [|reflexivity].
    rewrite Hget by lia. rewrite decide_True by done. reflexivity.
  - intros i j k' Hi Hj Hk' N. rewrite Hget by lia.
    rewrite decide_False; [reflexivity|]. intros (<- & <- & <-). by apply N.
Qed.

Lemma stored_fence_effect_witness :
  ∃ k : Z,
    ((k = 1 ∧ "v"%string = "h"%string) ∨ (k = 2 ∧ "v"%string = "v"%string)) ∧
    0 ≤ (3, 5).2 ≤ 8 ∧ 0 ≤ (3, 5).1 ≤ 9 ∧
    bget (_board new_game) (3, 5).2 (3, 5).1 k = Some VNone ∧
    (∃ f, bget (_board (step new_game (PlaceFence None "v" (3, 5)))) (3, 5).2 (3, 5).1 k
          = Some (VFence f) ∧ get_orientation f = "v"%string) ∧
    (∀ i j k', 0 ≤ i < 10 → 0 ≤ j < 10 → 0 ≤ k' < 3 →
       ¬ (i = (3, 5).2 ∧ j = (3, 5).1 ∧ k' = k) →
       bget (_board (step new_game (PlaceFence None "v" (3, 5)))) i j k'
       = bget (_board new_game) i j k') ∧
    _winner (step new_game (PlaceFence None "v" (3, 5))) = _winner new_game.
Proof.
  apply (stored_fence_effect new_game None "v" (3, 5) reachable_new).
  vm_compute. discriminate.
Defined.

Lemma stored_fence_run self player orient xy (k : Z) :
  bget (_board self) xy.2 xy.1 k = Some VNone →
  ∃ b', bset (_board self) xy.2 xy.1 k (VFence (mkFence orient)) = Some b' ∧
    bind (board_set xy.2 xy.1 k (VFence (mkFence orient)))
         (λ _, fence_placed_success player) self
    = (Ret (fence_answer player), fence_result self player b').
Proof.
  intros Hk. destruct (bset_after_bget _ _ _ _ (VFence (mkFence orient)) _ Hk)
    as [b' Hb']. exists b'. split; [done|].
  unfold bind, board_set. rewrite Hb'. rewrite fence_placed_success_run.
  reflexivity.
Qed.

(** X6.  The rule of [place_fence].  In a reachable state without a winner,
    for a row 0..8 and a column 0..9 (column 9 included), a call with
    orientation "h" or "v", made with player [None] or by the current
    player with a reserve that is not empty, never raises; it stores the
    fence and returns true ([None] for player [None]) exactly when the slot
    of that orientation at the coordinate is empty, and returns false when
    the slot is taken. *)
Theorem place_fence_rule g player orient xy (k : Z) :
  reachable g → _winner g = None → 0 ≤ xy.2 ≤ 8 → 0 ≤ xy.1 ≤ 9 →
  player = None ∨
    (player = Some (_current_player g) ∧ fence_count g (_current_player g) ≠ 0) →
  (k = 1 ∧ orient = "h"%string) ∨ (k = 2 ∧ orient = "v"%string) →
  ∃ v, bget (_board g) xy.2 xy.1 k = Some v ∧
    answer g (PlaceFence player orient xy)
    = Ret (if is_none v
           then match player with Some _ => Some true | None => None end
           else Some false).
Proof.
  intros Hr Hw Rr Rc Hpl Hk. pose proof (reachable_Inv g Hr) as HI.
  assert (fence_guard g player xy = false) as G.
  { unfold fence_guard, out_of_bounds. rewrite Hw. simpl.
    pose proof (inv_turn _ HI) as Ht.
    destruct Hpl as [-> | [-> Hcnt]]; simpl.
    - repeat (apply orb_false_intro); lia.
    - rewrite Z.eqb_refl. simpl. unfold fence_count in Hcnt.
      destruct Ht as [E | E]; rewrite E in *; simpl in *;
        repeat (apply orb_false_intro); try lia. }
  destruct (bget_valid (_board g) xy.2 xy.1 k (inv_shape _ HI)) as [v Hv];
    [norm_lia| norm_lia | destruct Hk as [[-> _] | [-> _]]; reflexivity |].
  exists v. split; [exact Hv|].
  destruct (is_none v) eqn:Nv.
  - apply is_none_spec in Nv as ->. unfold answer, run_call.
    rewrite (place_fence_unguarded _ _ _ _ G).
    destruct (stored_fence_run g player orient xy k Hv) as (b' & _ & Hrun).
    destruct Hk as [[-> ->] | [-> ->]]; unfold probe_fence; simpl; rewrite Hv; simpl;
      rewrite Hrun; reflexivity.
  - unfold answer, run_call.
    rewrite (place_fence_on_occupied g player orient xy k v Hk Hv); [reflexivity|].
    intros ->. discriminate.
Qed.

Lemma place_fence_rule_witness :
  ∃ v, bget (_board new_game) (9, 3).2 (9, 3).1 1 = Some v ∧
    answer new_game (PlaceFence (Some 1) "h" (9, 3))
    = Ret (if is_none v then Some true else Some false).
Proof.
  apply (place_fence_rule new_game (Some 1) "h" (9, 3) 1 reachable_new eq_refl).
  - simpl. lia.
  - simpl. lia.
  - right. split; [reflexivity|]. vm_compute. discriminate.
  - left. split; reflexivity.
Defined.

(** X7.  What a move that returns true changes.  It was made by the
    current player, whose pawn stood on an orthogonal neighbour of the
    target; afterwards that pawn stands on the target and nowhere else and
    the cell it left holds [None]; no fence slot changes, and no pawn slot
    other than those of the two cells. *)
Theorem move_effect g player xy :
  reachable g → answer g (MovePawn player xy) = Ret (Some true) →
  ∃ src,
    player = Some (_current_player g) ∧
    pawn_cells g (_current_player g) = [src] ∧ adjacent src xy = true ∧
    pawn_cells (step g (MovePawn player xy)) (_current_player g) = [xy] ∧
    bget (_board (step g (MovePawn player xy))) src.2 src.1 0 = Some VNone ∧
    (∀ i j k, 0 ≤ i < 10 → 0 ≤ j < 10 → k = 1 ∨ k = 2 →
       bget (_board (step g (MovePawn player xy))) i j k = bget (_board g) i j k) ∧
    (∀ i j, 0 ≤ i < 10 → 0 ≤ j < 10 → (j, i) ≠ src → (j, i) ≠ xy →
       bget (_board (step g (MovePawn player xy))) i j 0 = bget (_board g) i j 0).
Proof.
  intros Hr H. pose proof (reachable_Inv g Hr) as HI.
  pose proof (Inv_step g (MovePawn player xy) HI) as HI'.
  destruct (call_ending g (MovePawn player xy) HI)
    as [A S | A S | xy' prev b1 b2 Ec Hw Hc Ha Hs H1 H2 A S
        | pl o xy' k b' Ec Hk G R W A S]; try congruence.
  injection Ec as -> <-. set (p := _current_player g) in *.
  unfold steps_from in Hs. apply andb_true_iff in Hs as [Hs _].
  apply andb_true_iff in Hs as [Hprev Hp].
  destruct (moved_board _ _ _ _ _ _ (inv_shape _ HI) Hc Hprev H1 H2) as [_ Hget].
  pose proof (proj1 (on_board_spec _) Hc) as Rc.
  pose proof (proj1 (on_board_spec _) Hprev) as Rp.
  pose proof (proj1 (adjacent_spec _ _) Ha) as Ra.
  exists prev. split; [reflexivity|].
  split; [apply pawn_cells_single; [done|apply in_all_cells; lia|done]|].
  split; [exact Ha|].
  rewrite S. unfold move_result at 2 3 4. simpl _board.
  split; [|split; [|split]].
  - rewrite <- S. apply pawn_cells_single; [done|apply in_all_cells; lia|].
    apply pawn_at_spec. rewrite S. simpl. rewrite Hget by lia.
    rewrite decide_False by lia. rewrite decide_True by done. reflexivity.
  - rewrite Hget by lia. rewrite decide_True by done. reflexivity.
  - intros i j k Hi Hj Hk. rewrite Hget by lia.
    rewrite !decide_False by lia. reflexivity.
  - intros i j Hi Hj N1 N2. rewrite Hget by lia.
    rewrite decide_False.
    2:{ intros (-> & -> & _). apply N1. by destruct prev. }
    rewrite decide_False; [reflexivity|].
    intros (-> & -> & _). apply N2. by destruct xy.
Qed.

Lemma move_effect_witness :
  ∃ src,
    Some 1 = Some (_current_player new_game) ∧
    pawn_cells new_game (_current_player new_game) = [src] ∧
    adjacent src (4, 1) = true ∧
    pawn_cells (step new_game (MovePawn (Some 1) (4, 1))) (_current_player new_game)
      = [(4, 1)] ∧
    bget (_board (step new_game (MovePawn (Some 1) (4, 1)))) src.2 src.1 0
      = Some VNone ∧
    (∀ i j k, 0 ≤ i < 10 → 0 ≤ j < 10 → k = 1 ∨ k = 2 →
       bget (_board (step new_game (MovePawn (Some 1) (4, 1)))) i j k
       = bget (_board new_game) i j k) ∧
    (∀ i j, 0 ≤ i < 10 → 0 ≤ j < 10 → (j, i) ≠ src → (j, i) ≠ (4, 1) →
       bget (_board (step new_game (MovePawn (Some 1) (4, 1)))) i j 0
       = bget (_board new_game) i j 0).
Proof.
  apply (move_effect new_game (Some 1) (4, 1) reachable_new). reflexivity.
Defined.

(** ** The winner field *)

(** X8.  In every reachable state the winner field is [None], 0 or 1.
    [is_winner] answers true for player 1 exactly when player 1's pawn
    stands on column 8; the field is 0 exactly when player 2's pawn stands
    on column 0; and [is_winner] never answers true for player 2. *)
Theorem winner_and_pawns g :
  reachable g →
  (_winner g = None ∨ _winner g = Some 0 ∨ _winner g = Some 1) ∧
  (is_winner g (Some 1) = true ↔
   ∃ row, 0 ≤ row ≤ 8 ∧ pawn_at g 1 (8, row) = true) ∧
  (is_winner g (Some 0) = true ↔
   ∃ row, 0 ≤ row ≤ 8 ∧ pawn_at g 2 (0, row) = true) ∧
  is_winner g (Some 2) = false.
Proof.
  intros Hr. pose proof (reachable_Inv2 g Hr) as HJ.
  pose proof (inv2_winner _ HJ) as Hw.
  pose proof (inv2_won1 _ HJ) as H1. pose proof (inv2_won0 _ HJ) as H0.
  split; [exact Hw|].
  assert (∀ p, is_winner g (Some p) = true ↔ _winner g = Some p) as Hi.
  { intros p. unfold is_winner. destruct (_winner g) as [w|]; simpl.
    - destruct (Z.eqb_spec w p); split; congruence.
    - split; discriminate. }
  split; [|split].
  - rewrite Hi, H1. split; intros (row & Rr & E); exists row; (split; [done|]);
      [by apply pawn_at_spec|by apply pawn_at_spec in E].
  - rewrite Hi, H0. split; intros (row & Rr & E); exists row; (split; [done|]);
      [by apply pawn_at_spec|by apply pawn_at_spec in E].
  - destruct (is_winner g (Some 2)) eqn:E; [|reflexivity].
    apply Hi in E. destruct Hw as [W | [W | W]]; congruence.
Qed.

Lemma winner_and_pawns_witness :
  is_winner (play new_game game_p1_reaches_column_8) (Some 1) = true ↔
  ∃ row, 0 ≤ row ≤ 8 ∧
         pawn_at (play new_game game_p1_reaches_column_8) 1 (8, row) = true.
Proof.
  exact (proj1 (proj2 (winner_and_pawns (play new_game game_p1_reaches_column_8)
    (reachable_play new_game game_p1_reaches_column_8 reachable_new)))).
Defined.

(** X9.  How the winner field moves.  From a reachable state, a call
    changes it only when it is a move that returns true: to 1 when
    player 1 lands on column 8, to 0 when player 2 lands on column 0.
    Every other call, fence placements included, leaves it as it is. *)
Theorem winner_step g c :
  reachable g →
  _winner (step g c) =
  match c with
  | MovePawn (Some p) xy =>
      if succeeded g c && (p =? 1) && (xy.1 =? 8) then Some 1
      else if succeeded g c && (p =? 2) && (xy.1 =? 0) then Some 0
      else _winner g
  | _ => _winner g
  end.
Proof.
  intros Hr. pose proof (reachable_Inv g Hr) as HI.
  destruct (call_ending g c HI)
    as [A S | A S | xy prev b1 b2 Ec Hw Hc Ha Hs H1 H2 A S
        | pl o xy k b' Ec Hk G R W A S].
  - rewrite S. unfold succeeded. rewrite A.
    destruct c as [[p|] xy | pl o xy]; reflexivity.
  - rewrite S. unfold succeeded. rewrite A.
    destruct c as [[p|] xy | pl o xy]; reflexivity.
  - rewrite S. unfold succeeded. rewrite A. subst c. reflexivity.
  - rewrite S, fence_result_winner. subst c. reflexivity.
Qed.

Lemma winner_step_witness :
  _winner (step (play new_game (removelast game_p1_reaches_column_8))
                (MovePawn (Some 1) (8, 0))) = Some 1.
Proof.
  exact (winner_step (play new_game (removelast game_p1_reaches_column_8))
           (MovePawn (Some 1) (8, 0))
           (reachable_play new_game _ reachable_new)).
Defined.

(** ** Exceptions *)

(** X10.  From a reachable state a call raises only on a column beyond the
    board (9 or more for a move, 10 or more for a fence) with a row inside
    0..8 and no winner yet, and a call that raises leaves the whole state
    as it was.  So on the columns 0..8 no call ever raises. *)
Theorem raises_only_beyond_board g c e :
  reachable g → answer g c = Raise e →
  step g c = g ∧ e = IndexError ∧ _winner g = None ∧
  0 ≤ (target c).2 ≤ 8 ∧
  match c with
  | MovePawn _ xy => 9 ≤ xy.1
  | PlaceFence _ _ xy => 10 ≤ xy.1
  end.
Proof.
  intros Hr H. pose proof (reachable_Inv g Hr) as HI.
  assert (step g c = g ∧ e = IndexError) as [S ->].
  { destruct (call_ending g c HI)
      as [A S | A S | xy prev b1 b2 Ec Hw Hc Ha Hs H1 H2 A S
          | pl o xy k b' Ec Hk G R W A S]; try congruence.
    split; [exact S|]. congruence. }
  split; [exact S|]. split; [reflexivity|].
  destruct c as [player xy | player orient xy]; simpl.
  - unfold answer, run_call, bind in H.
    destruct (out_of_bounds xy || negb (eq_opt (_winner g) None)
              || negb (eq_opt player (Some (_current_player g)))) eqn:G.
    { rewrite move_pawn_guarded in H by done. discriminate. }
    destruct (guard_false _ _ _ G) as (Rr & Rc & Hw & ->).
    split; [exact Hw|]. split; [exact Rr|].
    destruct (Z.le_gt_cases 9 xy.1) as [|Hlt]; [done|exfalso].
    assert (on_board xy = true) as Hb by (apply on_board_spec; lia).
    pose proof (move_pawn_answer g xy HI Hb Hw) as A.
    unfold answer, run_call, bind in A. rewrite A in H. discriminate.
  - unfold answer, run_call in H.
    destruct (fence_guard g player xy) eqn:G.
    { rewrite place_fence_guarded in H by done. discriminate. }
    destruct (fence_guard_false _ _ _ G) as (Rr & Rc & Hw & _).
    split; [exact Hw|]. split; [exact Rr|].
    destruct (Z.le_gt_cases 10 xy.1) as [|Hlt]; [done|exfalso].
    rewrite (place_fence_unguarded _ _ _ _ G) in H.
    assert (∀ k, k = 1 ∨ k = 2 → is_Some (bget (_board g) xy.2 xy.1 k)) as V.
    { intros k Hk. apply bget_valid; [exact (inv_shape _ HI)|norm_lia..|].
      destruct Hk as [-> | ->]; reflexivity. }
    destruct (V 1 ltac:(auto)) as [v1 E1]. destruct (V 2 ltac:(auto)) as [v2 E2].
    unfold probe_fence in H. rewrite E1, E2 in H. simpl in H.
    destruct (stored_fence_run g player orient xy 1) as (b1 & _ & Run1);
      [|rewrite Run1 in H].
    all: destruct (String.eqb orient "h"), (is_none v1) eqn:N1;
      try (apply is_none_spec in N1; subst v1); try done; try discriminate.
    all: destruct (String.eqb orient "v"), (is_none v2) eqn:N2;
      try (apply is_none_spec in N2; subst v2); try discriminate.
    all: destruct (stored_fence_run g player orient xy 2 E2) as (b2 & _ & Run2);
      rewrite Run2 in H; discriminate.
Qed.

Lemma raises_only_beyond_board_witness :
  step new_game (MovePawn (Some 1) (12, 0)) = new_game ∧
  IndexError = IndexError ∧ _winner new_game = None ∧
  0 ≤ (target (MovePawn (Some 1) (12, 0))).2 ≤ 8 ∧ 9 ≤ (12, 0).1.
Proof.
  apply (raises_only_beyond_board new_game (MovePawn (Some 1) (12, 0)) IndexError
           reachable_new).
  reflexivity.
Defined.

(** X11.  Beyond the board.  In a reachable state without a winner and for
    a row 0..8: a move of the current player to a column 9 or more raises
    [IndexError]; a fence with orientation "h" or "v" at a column 10 or
    more raises [IndexError] as well, with player [None] and, when the
    reserve is not empty, with the current player. *)
Theorem beyond_board_raises g (row col : Z) :
  reachable g → _winner g = None → 0 ≤ row ≤ 8 →
  (9 ≤ col →
   answer g (MovePawn (Some (_current_player g)) (col, row)) = Raise IndexError) ∧
  (10 ≤ col → ∀ orient, orient = "h"%string ∨ orient = "v"%string →
   answer g (PlaceFence None orient (col, row)) = Raise IndexError ∧
   (fence_count g (_current_player g) ≠ 0 →
    answer g (PlaceFence (Some (_current_player g)) orient (col, row))
    = Raise IndexError)).
Proof.
  intros Hr Hw Rr. pose proof (reachable_Inv g Hr) as HI. split.
  - intros Hc. exact (proj1 (move_beyond_column_8_raises g (col, row) Hr Hw Rr Hc)).
  - intros Hc orient Ho.
    assert (∀ player, fence_guard g player (col, row) = false →
            answer g (PlaceFence player orient (col, row)) = Raise IndexError) as K.
    { intros player G. unfold answer, run_call.
      rewrite (place_fence_unguarded _ _ _ _ G). unfold probe_fence. simpl.
      rewrite !bget_invalid_col by (exact (inv_shape _ HI) || lia). simpl.
      destruct Ho as [-> | ->]; reflexivity. }
    split.
    + apply K. unfold fence_guard, out_of_bounds. rewrite Hw. simpl.
      repeat (apply orb_false_intro); lia.
    + intros Hcnt. apply K. unfold fence_guard, out_of_bounds. rewrite Hw. simpl.
      rewrite Z.eqb_refl. simpl. unfold fence_count in Hcnt.
      destruct (inv_turn _ HI) as [E | E]; rewrite E in *; simpl in *;
        repeat (apply orb_false_intro); lia.
Qed.

Lemma beyond_board_raises_witness :
  answer new_game (MovePawn (Some (_current_player new_game)) (9, 4)) = Raise IndexError.
Proof.
  refine (proj1 (beyond_board_raises new_game 4 9 reachable_new eq_refl _) _); lia.
Defined.

(** ** Along a game *)

Lemma fence_count_step g c (p : Z) :
  Inv g → p = 1 ∨ p = 2 →
  fence_count (step g c) p
  = (if fence_by p c && succeeded g c then fence_count g p - 1 else fence_count g p)
  ∧ (fence_by p c && succeeded g c = true → 0 < fence_count g p).
Proof.
  intros HI Hp. pose proof (inv_turn _ HI) as Ht.
  destruct (call_counts_turn g c HI)
    as [(-> & _ & E1 & E2) | [(-> & [xy ->] & _ & E1 & E2)
        | (-> & (orient & xy & ->) & _ & Pos & E1 & E2)]].
  - rewrite andb_false_r. unfold fence_count. rewrite E1, E2. done.
  - simpl. unfold fence_count. rewrite E1, E2. done.
  - simpl. rewrite andb_true_r.
    destruct (Z.eqb_spec (_current_player g) p) as [<-|N]; [done|].
    replace p with (3 - _current_player g) by lia. done.
Qed.

(** X12.  Reserve and history.  Along any sequence of calls from a
    reachable state, a player's reserve is what it was minus the number of
    that player's fence placements that returned true; that number never
    exceeds the reserve the player started from, so from a new game a
    player gets at most 10 fences accepted. *)
Theorem reserve_accounting g cs (p : Z) :
  reachable g → p = 1 ∨ p = 2 →
  fence_count (play g cs) p = fence_count g p - placements g cs p ∧
  0 ≤ placements g cs p ≤ fence_count g p.
Proof.
  intros Hr Hp. revert g Hr.
  induction cs as [|c cs IH]; intros g Hr.
  - simpl. pose proof (reachable_Inv g Hr) as HI.
    assert (0 ≤ fence_count g p).
    { unfold fence_count. destruct Hp as [-> | ->]; simpl;
        [exact (inv_p1 _ HI)|exact (inv_p2 _ HI)]. }
    lia.
  - pose proof (reachable_Inv g Hr) as HI.
    destruct (fence_count_step g c p HI Hp) as [Hs Hpos].
    destruct (IH (step g c) (reachable_step g c Hr)) as [E R].
    simpl. rewrite E, Hs.
    destruct (fence_by p c && succeeded g c); [specialize (Hpos eq_refl)|]; lia.
Qed.

Lemma reserve_accounting_witness :
  fence_count (play new_game [PlaceFence (Some 1) "h" (4, 4); MovePawn (Some 2) (4, 7);
                              PlaceFence (Some 1) "h" (4, 4)]) 1 = 9.
Proof.
  exact (proj1 (reserve_accounting new_game
    [PlaceFence (Some 1) "h" (4, 4); MovePawn (Some 2) (4, 7);
     PlaceFence (Some 1) "h" (4, 4)] 1 reachable_new (or_introl eq_refl))).
Defined.

(** X13.  Whose turn it is.  After any sequence of calls from a reachable
    state the current player is the one it was when an even number of the
    calls returned true, and the other one when an odd number did. *)
Theorem turn_parity g cs :
  reachable g →
  _current_player (play g cs)
  = if Nat.even (successes g cs) then _current_player g else 3 - _current_player g.
Proof.
  intros Hr. revert g Hr.
  induction cs as [|c cs IH]; intros g Hr; [reflexivity|].
  pose proof (reachable_Inv g Hr) as HI.
  simpl play. rewrite (IH (step g c) (reachable_step g c Hr)). simpl successes.
  destruct (succeeded g c) eqn:S.
  - destruct (succeeded_turn g c HI S) as [_ ->].
    change (1 + successes (step g c) cs)%nat with (Datatypes.S (successes (step g c) cs)).
    rewrite Nat.even_succ, <- Nat.negb_even.
    destruct (Nat.even (successes (step g c) cs)); simpl; lia.
  - rewrite (not_succeeded_turn g c HI S). reflexivity.
Qed.

Lemma turn_parity_witness :
  _current_player (play new_game game_p2_reaches_column_0) = 2.
Proof.
  exact (turn_parity new_game game_p2_reaches_column_0 reachable_new).
Defined.

Lemma mover_has_pawn g (q : Z) xy :
  Inv g → succeeded g (MovePawn (Some q) xy) = true → pawn_cells g q ≠ [].
Proof.
  intros HI H. unfold succeeded in H.
  destruct (call_ending g (MovePawn (Some q) xy) HI)
    as [A S | A S | xy' prev b1 b2 Ec Hw Hc Ha Hs H1 H2 A S
        | pl o xy' k b' Ec Hk G R W A S].
  { rewrite A in H. discriminate. }
  { rewrite A in H. discriminate. }
  2:{ discriminate. }
  injection Ec as -> <-. unfold steps_from in Hs.
  apply andb_true_iff in Hs as [Hs _]. apply andb_true_iff in Hs as [Hprev Hp].
  apply on_board_spec in Hprev.
  rewrite (pawn_cells_single g _ prev HI); [discriminate|apply in_all_cells; lia|done].
Qed.

(** X14.  A pawn that is gone stays gone.  When a player has no pawn on
    the board in a reachable state, then after any further calls the
    player still has none, and no move of that player returns true. *)
Theorem lost_pawn_never_returns g cs (q : Z) :
  reachable g → q = 1 ∨ q = 2 → pawn_cells g q = [] →
  pawn_cells (play g cs) q = [] ∧
  ∀ xy, succeeded (play g cs) (MovePawn (Some q) xy) = false.
Proof.
  intros Hr Hq. revert g Hr.
  assert (∀ g, reachable g → pawn_cells g q = [] →
          ∀ xy, succeeded g (MovePawn (Some q) xy) = false) as Hno.
  { intros g Hr E xy. destruct (succeeded g (MovePawn (Some q) xy)) eqn:S; [|done].
    destruct (mover_has_pawn g q xy (reachable_Inv g Hr) S E). }
  induction cs as [|c cs IH]; intros g Hr E.
  - split; [exact E|]. by apply Hno.
  - simpl. apply IH; [by constructor|].
    destruct (pawn_cells_step g c q (reachable_Inv g Hr) Hq)
      as [U | [(xy & -> & S & _) | (xy & _ & _ & E' & _)]].
    + by rewrite U.
    + rewrite (Hno g Hr E xy) in S. discriminate.
    + congruence.
Qed.

Lemma lost_pawn_never_returns_witness :
  pawn_cells (play (play new_game game_p2_steps_on_p1)
                   [PlaceFence (Some 1) "h" (2, 2); MovePawn (Some 2) (4, 3)]) 1 = [].
Proof.
  refine (proj1 (lost_pawn_never_returns (play new_game game_p2_steps_on_p1)
    [PlaceFence (Some 1) "h" (2, 2); MovePawn (Some 2) (4, 3)] 1
    (reachable_play new_game game_p2_steps_on_p1 reachable_new)
    (or_introl eq_refl) _)).
  vm_compute. reflexivity.
Defined.

(** ** What the board holds *)

(** X15.  In every reachable state each of the hundred cells has its
    three slots; slot 0 holds [None], 1 or 2; slot 1 holds [None] or a
    [Fence] whose [get_orientation] is "h"; slot 2 holds [None] or a
    [Fence] whose [get_orientation] is "v". *)
Theorem slots_well_typed g (i j : Z) :
  reachable g → 0 ≤ i < 10 → 0 ≤ j < 10 →
  (∃ v, bget (_board g) i j 0 = Some v ∧ (v = VNone ∨ v = VInt 1 ∨ v = VInt 2)) ∧
  (∃ v, bget (_board g) i j 1 = Some v ∧
        (v = VNone ∨ ∃ f, v = VFence f ∧ get_orientation f = "h"%string)) ∧
  (∃ v, bget (_board g) i j 2 = Some v ∧
        (v = VNone ∨ ∃ f, v = VFence f ∧ get_orientation f = "v"%string)).
Proof.
  intros Hr Hi Hj. pose proof (reachable_Inv g Hr) as HI.
  pose proof (reachable_Inv2 g Hr) as HJ.
  assert (∀ k, 0 ≤ k < 3 → is_Some (bget (_board g) i j k)) as V.
  { intros k Hk. apply bget_valid; [exact (inv_shape _ HI)|norm_lia..]. }
  destruct (V 0 ltac:(lia)) as [v0 E0]. destruct (V 1 ltac:(lia)) as [v1 E1].
  destruct (V 2 ltac:(lia)) as [v2 E2].
  split; [|split].
  - exists v0. split; [done|]. exact (inv2_slot0 _ HJ i j v0 Hi Hj E0).
  - exists v1. split; [done|].
    destruct (inv2_slot1 _ HJ i j v1 Hi Hj E1) as [-> | ->]; [by left|right; eauto].
  - exists v2. split; [done|].
    destruct (inv2_slot2 _ HJ i j v2 Hi Hj E2) as [-> | ->]; [by left|right; eauto].
Qed.

Lemma slots_well_typed_witness :
  ∃ v, bget (_board (play new_game game_p2_steps_on_p1)) 4 4 0 = Some v ∧
       (v = VNone ∨ v = VInt 1 ∨ v = VInt 2).
Proof.
  refine (proj1 (slots_well_typed (play new_game game_p2_steps_on_p1) 4 4
    (reachable_play new_game game_p2_steps_on_p1 reachable_new) _ _)); lia.
Defined.

(** X16.  The edges in every reachable state.  Row 0 holds a horizontal
    fence in every column 0..9, and columns 0 and 9 hold a vertical fence
    in every row 0..8, as in the new game; row 9 holds nothing at all, in
    any slot: no call ever puts a fence or a pawn there. *)
Theorem edges_in_reachable_states g (n : Z) :
  reachable g → 0 ≤ n ≤ 9 →
  bget (_board g) 0 n 1 = Some (VFence (mkFence "h")) ∧
  (n ≤ 8 → bget (_board g) n 0 2 = Some (VFence (mkFence "v")) ∧
           bget (_board g) n 9 2 = Some (VFence (mkFence "v"))) ∧
  bget (_board g) 9 n 0 = Some VNone ∧
  bget (_board g) 9 n 1 = Some VNone ∧
  bget (_board g) 9 n 2 = Some VNone.
Proof.
  intros Hr Hn. pose proof (reachable_Inv2 g Hr) as HJ.
  split; [apply (inv2_top _ HJ); lia|].
  split; [intros H8; split; [apply (inv2_left _ HJ)|apply (inv2_right _ HJ)]; lia|].
  repeat split; apply (inv2_row9 _ HJ); lia.
Qed.

Lemma edges_in_reachable_states_witness :
  bget (_board (play new_game game_p1_reaches_column_8)) 9 5 1 = Some VNone.
Proof.
  refine (proj1 (proj2 (proj2 (proj2
    (edges_in_reachable_states (play new_game game_p1_reaches_column_8) 5
       (reachable_play new_game game_p1_reaches_column_8 reachable_new) _))))); lia.
Defined.

(** ** The printed board *)

Lemma append_assoc' (a b c : string) : ((a ++ b) ++ c)%string = (a ++ (b ++ c))%string.
Proof. induction a as [|x a IH]; simpl; [reflexivity|by rewrite IH]. Qed.

Lemma append_nil_r' (a : string) : (a ++ "")%string = a.
Proof. induction a as [|x a IH]; simpl; [reflexivity|by rewrite IH]. Qed.

Lemma wfor_from_texts {A} (xs : list A) (n : nat) (body : nat → A → W unit)
      (f : nat → string) :
  (∀ k x, xs !! k = Some x → body (n + k)%nat x = (f (n + k)%nat, Ret tt)) →
  wfor_from n xs body = (join (map f (seq n (length xs))), Ret tt).
Proof.
  revert n. induction xs as [|x xs IH]; intros n H; [reflexivity|].
  simpl. pose proof (H 0%nat x eq_refl) as H0. rewrite Nat.add_0_r in H0.
  rewrite H0. unfold wbind. rewrite IH; [reflexivity|].
  intros k y Hk. replace (S n + k)%nat with (n + S k)%nat by lia.
  by apply (H (S k)).
Qed.

Lemma lines_join (a b : nat → string) (l : list nat) :
  join (map (λ i, (a i ++ (newline ++ (b i ++ newline)))%string) l)
  = unlines (flat_map (λ i, [a i; b i]) l).
Proof.
  unfold unlines, join. generalize newline as nl. intros nl.
  induction l as [|i l IH]; [reflexivity|].
  simpl. rewrite IH. rewrite !append_assoc'. reflexivity.
Qed.

Lemma getitem_nat {A} (l : list A) (n : nat) x :
  l !! n = Some x → getitem l (Z.of_nat n) = Some x.
Proof.
  intros H. pose proof (lookup_lt_Some _ _ _ H) as L. unfold getitem.
  rewrite py_index_spec, valid_canon, norm_canon, Nat2Z.id by lia. exact H.
Qed.

Lemma cell_read (b : board) (i j : nat) sublist element (k : Z) :
  shape b → b !! i = Some sublist → sublist !! j = Some element →
  getitem element k = bget b (Z.of_nat i) (Z.of_nat j) k.
Proof.
  intros Hb Hi Hj. unfold bget.
  rewrite (getitem_nat _ _ _ Hi). simpl. rewrite (getitem_nat _ _ _ Hj). reflexivity.
Qed.

Lemma getitem_9 {A} (l : list A) : length l = 10%nat → is_Some (getitem l 9).
Proof.
  intros H. destruct (lookup_lt_is_Some_2 l 9) as [x Hx]; [lia|].
  exists x. exact (getitem_nat l 9 x Hx).
Qed.

Section PrintingProofs.

Variable repr_Fence : Fence → string.
Variable g : QuoridorGame.
Hypothesis HI : Inv g.
Hypothesis HJ : Inv2 g.

Variables (i j : nat) (sublist : list cell) (element : cell).
Hypothesis Hrow : _board g !! i = Some sublist.
Hypothesis Hcell : sublist !! j = Some element.

Lemma print_fence_piece :
  (wdo h <- wand (wdo v <- wread (getitem element 1) in wret (negb (is_none v)))
                 (is_not_9th j sublist) in
   if h then print "  _ "
   else
     wdo h' <- wand (wdo v <- wread (getitem element 1) in wret (is_none v))
                    (is_not_9th j sublist) in
     if h' then print "    " else wret tt)
  = ((if (j =? 9)%nat then "" else fence_text g (Z.of_nat i) (Z.of_nat j))%string,
     Ret tt).
Proof.
  pose proof (inv_shape _ HI) as Hb.
  pose proof (lookup_lt_Some _ _ _ Hrow) as Li.
  pose proof (lookup_lt_Some _ _ _ Hcell) as Lj.
  destruct (shape_row _ _ _ Hb Hrow) as [Hlen _].
  rewrite (proj1 Hb) in Li. rewrite Hlen in Lj.
  destruct (getitem_9 sublist Hlen) as [x9 E9].
  rewrite (cell_read _ _ _ _ _ 1 Hb Hrow Hcell).
  destruct (bget_valid (_board g) (Z.of_nat i) (Z.of_nat j) 1 Hb) as [v Ev];
    [norm_lia..|].
  unfold fence_text, is_not_9th. rewrite Ev, E9.
  destruct (inv2_slot1 _ HJ (Z.of_nat i) (Z.of_nat j) v ltac:(lia) ltac:(lia) Ev) as [-> | ->];
    destruct (j =? 9)%nat; reflexivity.
Qed.

Lemma print_cell_piece :
  ((wdo w <- wand (wdo v <- wread (getitem element 2) in wret (is_none v))
                  (is_not_9th i (_board g)) in
    if w then print " "
    else
      wdo w' <- wand (wdo v <- wread (getitem element 2) in wret (negb (is_none v)))
                     (is_not_9th i (_board g)) in
      if w' then print "|" else wret tt) >>>
   (wdo p <- wand (wdo v <- wread (getitem element 0) in wret (is_none v))
                  (wand (is_not_9th j sublist) (is_not_9th i (_board g))) in
    if p then print "[ ]"
    else
      wdo p' <- wand (wdo v <- wread (getitem element 0) in wret (negb (is_none v)))
                     (wand (is_not_9th j sublist) (is_not_9th i (_board g))) in
      if p' then
        wdo v <- wread (getitem element 0) in
        print ("[" ++ py_str repr_Fence v ++ "]")
      else wret tt))
  = ((if (i =? 9)%nat then ""
      else if (j =? 9)%nat then wall_text g (Z.of_nat i) 9
      else wall_text g (Z.of_nat i) (Z.of_nat j)
           ++ pawn_text g (Z.of_nat i) (Z.of_nat j))%string,
     Ret tt).
Proof.
  pose proof (inv_shape _ HI) as Hb.
  pose proof (lookup_lt_Some _ _ _ Hrow) as Li.
  pose proof (lookup_lt_Some _ _ _ Hcell) as Lj.
  destruct (shape_row _ _ _ Hb Hrow) as [Hlen _].
  rewrite (proj1 Hb) in Li. rewrite Hlen in Lj.
  destruct (getitem_9 sublist Hlen) as [x9 E9].
  destruct (getitem_9 (_board g) (proj1 Hb)) as [r9 R9].
  rewrite !(cell_read _ _ _ _ _ 2 Hb Hrow Hcell).
  rewrite !(cell_read _ _ _ _ _ 0 Hb Hrow Hcell).
  destruct (bget_valid (_board g) (Z.of_nat i) (Z.of_nat j) 2 Hb) as [v2 E2];
    [norm_lia..|].
  destruct (bget_valid (_board g) (Z.of_nat i) (Z.of_nat j) 0 Hb) as [v0 E0];
    [norm_lia..|].
  unfold wall_text, pawn_text, pawn_at, is_not_9th. simpl fst. simpl snd.
  rewrite E0, E9, R9.
  destruct (Nat.eqb_spec i 9) as [Ei | Ni].
  - rewrite E2.
    destruct (inv2_slot2 _ HJ (Z.of_nat i) (Z.of_nat j) v2 ltac:(lia) ltac:(lia) E2) as [-> | ->];
      destruct (inv2_slot0 _ HJ (Z.of_nat i) (Z.of_nat j) v0 ltac:(lia) ltac:(lia) E0) as [-> | [-> | ->]];
      destruct (j =? 9)%nat; reflexivity.
  - destruct (Nat.eqb_spec j 9) as [Ej | Nj].
    + subst j. change (Z.of_nat 9) with 9 in *. rewrite E2.
      destruct (inv2_slot2 _ HJ (Z.of_nat i) 9 v2 ltac:(lia) ltac:(lia) E2) as [-> | ->];
        destruct (inv2_slot0 _ HJ (Z.of_nat i) 9 v0 ltac:(lia) ltac:(lia) E0)
          as [-> | [-> | ->]]; reflexivity.
    + rewrite E2.
      destruct (inv2_slot2 _ HJ (Z.of_nat i) (Z.of_nat j) v2 ltac:(lia) ltac:(lia) E2) as [-> | ->];
        destruct (inv2_slot0 _ HJ (Z.of_nat i) (Z.of_nat j) v0 ltac:(lia) ltac:(lia) E0)
          as [-> | [-> | ->]]; reflexivity.
Qed.

End PrintingProofs.

Lemma print_board_picture repr_Fence g :
  Inv g → Inv2 g → print_board repr_Fence g = (unlines (picture g), Ret tt).
Proof.
  intros HI HJ. pose proof (inv_shape _ HI) as Hb.
  unfold print_board.
  rewrite (wfor_from_texts (_board g) 0 _
    (λ i, (fence_line g (Z.of_nat i)
           ++ (newline ++ ((if (i =? 9)%nat then "" else cell_line g (Z.of_nat i))
                           ++ newline)))%string)).
  - rewrite (proj1 Hb).
    rewrite (lines_join (λ i, fence_line g (Z.of_nat i))
               (λ i, (if (i =? 9)%nat then "" else cell_line g (Z.of_nat i))%string)).
    reflexivity.
  - intros i sublist Hrow. change (0 + i)%nat with i.
    destruct (shape_row _ _ _ Hb Hrow) as [Hlen _].
    rewrite (wfor_from_texts sublist 0 _
      (λ j, (if (j =? 9)%nat then ""
             else fence_text g (Z.of_nat i) (Z.of_nat j))%string)).
    2:{ intros j element Hcell. change (0 + j)%nat with j.
        exact (print_fence_piece g HI HJ i j sublist element Hrow Hcell). }
    rewrite (wfor_from_texts sublist 0 _
      (λ j, (if (i =? 9)%nat then ""
             else if (j =? 9)%nat then wall_text g (Z.of_nat i) 9
             else wall_text g (Z.of_nat i) (Z.of_nat j)
                  ++ pawn_text g (Z.of_nat i) (Z.of_nat j))%string)).
    2:{ intros j element Hcell. change (0 + j)%nat with j.
        exact (print_cell_piece repr_Fence g HI HJ i j sublist element Hrow Hcell). }
    rewrite Hlen. unfold wbind, print. cbn [fst snd].
    destruct (i =? 9)%nat; reflexivity.
Qed.

Lemma length_append' (a b : string) :
  String.length (a ++ b) = (String.length a + String.length b)%nat.
Proof. induction a as [|x a IH]; simpl; [reflexivity|by rewrite IH]. Qed.

Lemma one_line_append (a b : string) :
  one_line (a ++ b) = one_line a && one_line b.
Proof.
  unfold one_line. induction a as [|x a IH]; simpl; [reflexivity|].
  rewrite IH. by rewrite andb_assoc.
Qed.

Lemma join_app (l1 l2 : list string) : join (l1 ++ l2) = (join l1 ++ join l2)%string.
Proof.
  unfold join. induction l1 as [|x l1 IH]; simpl; [reflexivity|].
  rewrite IH. by rewrite append_assoc'.
Qed.

Lemma fence_text_cases g row col :
  fence_text g row col = "  _ "%string ∨ fence_text g row col = "    "%string.
Proof. unfold fence_text. destruct (occupied _); auto. Qed.

Lemma wall_text_cases g row col :
  wall_text g row col = "|"%string ∨ wall_text g row col = " "%string.
Proof. unfold wall_text. destruct (occupied _); auto. Qed.

Lemma pawn_text_cases g row col :
  pawn_text g row col = "[1]"%string ∨ pawn_text g row col = "[2]"%string
  ∨ pawn_text g row col = "[ ]"%string.
Proof.
  unfold pawn_text. destruct (pawn_at g 1 _); [auto|]. destruct (pawn_at g 2 _); auto.
Qed.

Lemma fence_text_facts g row col :
  one_line (fence_text g row col) = true ∧ String.length (fence_text g row col) = 4%nat.
Proof. destruct (fence_text_cases g row col) as [-> | ->]; split; reflexivity. Qed.

Lemma wall_text_facts g row col :
  one_line (wall_text g row col) = true ∧ String.length (wall_text g row col) = 1%nat.
Proof. destruct (wall_text_cases g row col) as [-> | ->]; split; reflexivity. Qed.

Lemma pawn_text_facts g row col :
  one_line (pawn_text g row col) = true ∧ String.length (pawn_text g row col) = 3%nat.
Proof.
  destruct (pawn_text_cases g row col) as [-> | [-> | ->]]; split; reflexivity.
Qed.

Lemma fence_line_facts g row :
  one_line (fence_line g row) = true ∧ String.length (fence_line g row) = 36%nat.
Proof.
  unfold fence_line, join, range. cbn [seq fmap list_fmap map fold_right].
  rewrite !one_line_append, !length_append'.
  rewrite !(proj1 (fence_text_facts g row _)), !(proj2 (fence_text_facts g row _)).
  split; reflexivity.
Qed.

Lemma cell_line_facts g row :
  one_line (cell_line g row) = true ∧
  ∃ inner,
    cell_line g row = (wall_text g row 0 ++ inner ++ wall_text g row 9)%string ∧
    String.length inner = 35%nat.
Proof.
  pose proof (λ col, proj1 (wall_text_facts g row col)) as W1.
  pose proof (λ col, proj2 (wall_text_facts g row col)) as W2.
  pose proof (λ col, proj1 (pawn_text_facts g row col)) as P1.
  pose proof (λ col, proj2 (pawn_text_facts g row col)) as P2.
  unfold cell_line, range. cbn [seq fmap list_fmap map].
  change (Z.of_nat 0) with 0.
  set (tl := [_; _; _; _; _; _; _; _]).
  change (((wall_text g row 0 ++ pawn_text g row 0)%string :: tl) ++ [wall_text g row 9])
    with ((wall_text g row 0 ++ pawn_text g row 0)%string :: (tl ++ [wall_text g row 9])).
  change (join ((wall_text g row 0 ++ pawn_text g row 0)%string
                :: (tl ++ [wall_text g row 9])))
    with ((wall_text g row 0 ++ pawn_text g row 0)
          ++ join (tl ++ [wall_text g row 9]))%string.
  rewrite join_app. change (join [wall_text g row 9]) with (wall_text g row 9 ++ "")%string.
  rewrite append_nil_r'.
  assert (one_line (join tl) = true ∧ String.length (join tl) = 32%nat) as [T1 T2].
  { unfold tl, join. cbn [fold_right].
    rewrite !one_line_append, !length_append', !W1, !W2, !P1, !P2.
    split; reflexivity. }
  split.
  - rewrite !one_line_append, W1, W1, P1, T1. reflexivity.
  - exists (pawn_text g row 0 ++ join tl)%string. split.
    + rewrite !append_assoc'. reflexivity.
    + rewrite length_append', P2, T2. reflexivity.
Qed.

(** X17.  In every reachable state [print_board] returns without raising
    and writes exactly the picture of the state: twenty lines, for each row
    0..8 the line of the horizontal fences above its nine cells and the
    line of its cells (each with the vertical fence on its left and the
    number of the pawn on it, closed by the fence of column 9), then the
    fence line of row 9 and an empty line.  The text Python gives a [Fence]
    object never shows. *)
Theorem print_board_shows_state (repr_Fence : Fence → string) g :
  reachable g → print_board repr_Fence g = (unlines (picture g), Ret tt).
Proof.
  intros Hr. apply print_board_picture; [by apply reachable_Inv|by apply reachable_Inv2].
Qed.

Lemma print_board_shows_state_witness :
  print_board (λ _, "<Fence>"%string) (play new_game game_p2_steps_on_p1)
  = (unlines (picture (play new_game game_p2_steps_on_p1)), Ret tt).
Proof.
  apply (print_board_shows_state (λ _, "<Fence>"%string)
           (play new_game game_p2_steps_on_p1)).
  apply reachable_play. constructor.
Defined.

Lemma fence_text_row_0 g col : Inv2 g → 0 ≤ col < 10 → fence_text g 0 col = "  _ "%string.
Proof. intros HJ Hc. unfold fence_text. rewrite (inv2_top _ HJ col Hc). reflexivity. Qed.

Lemma fence_text_row_9 g col : Inv2 g → 0 ≤ col < 10 → fence_text g 9 col = "    "%string.
Proof.
  intros HJ Hc. unfold fence_text. rewrite (inv2_row9 _ HJ col 1 Hc ltac:(lia)).
  reflexivity.
Qed.

Lemma wall_text_edges g row :
  Inv2 g → 0 ≤ row ≤ 8 →
  wall_text g row 0 = "|"%string ∧ wall_text g row 9 = "|"%string.
Proof.
  intros HJ Hr. unfold wall_text.
  rewrite (inv2_left _ HJ row Hr), (inv2_right _ HJ row Hr). split; reflexivity.
Qed.

(** X18.  The layout of the printed board, in every reachable state.  The
    output is twenty lines, each ended by a newline.  The first is the top
    edge, nine fences; the fence lines are 36 characters wide; each of the
    nine cell lines is 37 characters, a "|" at either end; and the last
    two lines are 36 blanks and the empty line: the far edge of the board is
    never drawn. *)
Theorem printed_layout (repr_Fence : Fence → string) g :
  reachable g →
  ∃ ls,
    print_board repr_Fence g = (unlines ls, Ret tt) ∧
    length ls = 20%nat ∧
    Forall (λ l, one_line l = true) ls ∧
    nth 0 ls ""%string = "  _   _   _   _   _   _   _   _   _ "%string ∧
    (∀ r, (r < 10)%nat → String.length (nth (2 * r) ls ""%string) = 36%nat) ∧
    (∀ r, (r < 9)%nat →
       ∃ inner, nth (2 * r + 1) ls ""%string = ("|" ++ inner ++ "|")%string ∧
                String.length inner = 35%nat) ∧
    nth 18 ls ""%string = "                                    "%string ∧
    nth 19 ls ""%string = ""%string.
Proof.
  intros Hr. pose proof (reachable_Inv g Hr) as HI.
  pose proof (reachable_Inv2 g Hr) as HJ.
  exists (picture g). split; [by apply print_board_picture|].
  split; [reflexivity|]. split; [|split; [|split; [|split; [|split]]]].
  - unfold picture, range. cbn [seq fmap list_fmap flat_map app].
    repeat (constructor; [first [apply fence_line_facts | apply cell_line_facts
                                | reflexivity]|]).
    constructor.
  - change (nth 0 (picture g) ""%string) with (fence_line g 0).
    unfold fence_line, join, range. cbn [seq fmap list_fmap map fold_right].
    rewrite !(fence_text_row_0 g _ HJ) by lia. reflexivity.
  - intros r Hlt.
    assert (nth (2 * r) (picture g) ""%string = fence_line g (Z.of_nat r)) as ->.
    { do 10 (destruct r as [|r]; [reflexivity|]). lia. }
    apply fence_line_facts.
  - intros r Hlt.
    assert (nth (2 * r + 1) (picture g) ""%string = cell_line g (Z.of_nat r)) as ->.
    { do 9 (destruct r as [|r]; [reflexivity|]). lia. }
    destruct (cell_line_facts g (Z.of_nat r)) as (_ & inner & E & L).
    destruct (wall_text_edges g (Z.of_nat r) HJ ltac:(lia)) as [E0 E9].
    exists inner. rewrite E, E0, E9. done.
  - change (nth 18 (picture g) ""%string) with (fence_line g 9).
    unfold fence_line, join, range. cbn [seq fmap list_fmap map fold_right].
    rewrite !(fence_text_row_9 g _ HJ) by lia. reflexivity.
  - reflexivity.
Qed.

Lemma printed_layout_witness :
  ∃ ls,
    print_board (λ _, "<Fence>"%string) new_game = (unlines ls, Ret tt) ∧
    length ls = 20%nat ∧
    Forall (λ l, one_line l = true) ls ∧
    nth 0 ls ""%string = "  _   _   _   _   _   _   _   _   _ "%string ∧
    (∀ r, (r < 10)%nat → String.length (nth (2 * r) ls ""%string) = 36%nat) ∧
    (∀ r, (r < 9)%nat →
       ∃ inner, nth (2 * r + 1) ls ""%string = ("|" ++ inner ++ "|")%string ∧
                String.length inner = 35%nat) ∧
    nth 18 ls ""%string = "                                    "%string ∧
    nth 19 ls ""%string = ""%string.
Proof.
  apply (printed_layout (λ _, "<Fence>"%string) new_game). constructor.
Defined.
